(** * The step sequencer of the 16-Bit Music Loop Tool

    A shallow embedding of [music-loop-tool/js/sequencer.js] (class
    [Sequencer]) and of the part of [audio.js] (class [AudioEngine]) that
    the sequencer calls, followed by the properties of the pattern grid,
    the active-step cache and the transport.

    Conventions of the embedding:
    - row and step arguments are JavaScript numbers used as array indices;
      they are integers here ([Z], negative values included);
    - a grid cell is a boolean, as the JSDoc of [setStep] declares it;
    - the tempo is a JavaScript number that is only stored, never computed
      with: [jsnum] keeps the finite values apart from the two infinities
      and NaN;
    - a Tone.js time is passed through unchanged: an integer tick;
    - the objects the code reaches through globals ([Tone.Transport],
      [console], [document]) are the [Host]; every call that leaves the
      sequencer is appended to its [trace];
    - an operation that can raise a JavaScript exception returns a
      [result]. *)

From Stdlib Require Import ZArith QArith List Sorting.Sorted.
From stdpp Require Import base decidable option list list_numbers gmap strings.

Local Open Scope Z_scope.

(** ** JavaScript values *)

Inductive jsnum : Type :=
  | Finite (q : Q)
  | PosInfinity
  | NegInfinity
  | NaN.

(** [bpm > 0 && Number.isFinite(bpm)]: what the documentation of the tempo
    calls a valid value. The code never evaluates it. *)
Definition positive_finite (n : jsnum) : bool :=
  match n with
  | Finite q => if Qlt_le_dec 0 q then true else false
  | _ => false
  end.

Definition time : Type := Z.

Inductive error : Type :=
  | TypeError.

Inductive result (A : Type) : Type :=
  | Ok (a : A)
  | Throw (e : error).

Arguments Ok {A} a.
Arguments Throw {A} e.

#[global] Instance result_ret : MRet result := fun A a => Ok a.
#[global] Instance result_bind : MBind result := fun A B f m =>
  match m with
  | Ok a => f a
  | Throw e => Throw e
  end.

(** [for (x of l) { acc = f(acc, x) }] with a body that may throw. *)
Fixpoint foldM {A B : Type} (f : B -> A -> result B) (l : list A) (b : B)
  : result B :=
  match l with
  | [] => Ok b
  | x :: l' => b' ← f b x; foldM f l' b'
  end.

(** [a[i]] on an array: [undefined] ([None]) outside [0 .. a.length-1]. *)
Definition js_index {A : Type} (a : list A) (i : Z) : option A :=
  if decide (0 <= i) then a !! Z.to_nat i else None.

(** ** The host: Tone.Transport, console and document *)

Inductive event : Type :=
  | ScheduleNote (instrumentIndex : Z) (t : time)
      (* audioEngine.scheduleNote(instrumentIndex, t) was called *)
  | PlayerStart (instrumentIndex : Z) (t : time)
      (* player.start(t) *)
  | StepEvent (step : Z)
      (* document.dispatchEvent of 'sequencer:step' with detail.step *)
  | ConsoleLog (msg : string)
  | ConsoleTempo (bpm : jsnum).
      (* console.log(`Tempo set to ${bpm} BPM`) *)

Record Host : Type := mkHost {
  transport_started : bool;     (* Tone.Transport.start() / stop() *)
  transport_bpm : jsnum;        (* Tone.Transport.bpm.value *)
  trace : list event
}.

Definition emit (e : event) (h : Host) : Host :=
  mkHost (transport_started h) (transport_bpm h) (trace h ++ [e]).

Definition set_transport_started (b : bool) (h : Host) : Host :=
  mkHost b (transport_bpm h) (trace h).

Definition set_transport_bpm (n : jsnum) (h : Host) : Host :=
  mkHost (transport_started h) n (trace h).

Definition new_Host : Host := mkHost false (Finite 120) [].

(** ** audio.js: class AudioEngine *)

Module AudioEngine.

Record t : Type := mk {
  initialized : bool;
  isPlaying : bool;
  players : gset Z;           (* the keys i with this.players[i] set *)
  tempo : jsnum
}.

(** [constructor()] *)
Definition new : t := mk false false ∅ (Finite 120).

Definition samplePaths_length : Z := 8.

(** [init()], once its promise has settled. [loaded] tells whether
    [Tone.start()] and [loadSamples()] went through; the value returned
    is the success status. After a success every sample path has its
    player. Of a failure, what is kept is that [initialized] stays false,
    which is all the methods below look at, and the error line. *)
Definition init (loaded : bool) (e : t) (h : Host) : bool * t * Host :=
  if loaded then
    (true,
     mk true (isPlaying e) (list_to_set (seqZ 0 samplePaths_length)) (tempo e),
     emit (ConsoleLog "Audio engine initialized")
       (emit (ConsoleLog "All samples loaded")
          (set_transport_bpm (tempo e)
             (emit (ConsoleLog "Audio context started") h))))
  else
    (false, e, emit (ConsoleLog "Failed to initialize audio engine") h).

(** [scheduleNote(instrumentIndex, time)] *)
Definition scheduleNote (instrumentIndex : Z) (tm : time) (e : t) (h : Host)
  : Host :=
  let h := emit (ScheduleNote instrumentIndex tm) h in
  if negb (initialized e) then h
  else if decide (instrumentIndex ∈ players e)
       then emit (PlayerStart instrumentIndex tm) h
       else h.

(** [start()] *)
Definition start (e : t) (h : Host) : t * Host :=
  if negb (initialized e) then (e, h)
  else
    (mk (initialized e) true (players e) (tempo e),
     emit (ConsoleLog "Audio playback started") (set_transport_started true h)).

(** [stop()] *)
Definition stop (e : t) (h : Host) : t * Host :=
  if negb (initialized e) then (e, h)
  else
    (mk (initialized e) false (players e) (tempo e),
     emit (ConsoleLog "Audio playback stopped") (set_transport_started false h)).

(** [setTempo(bpm)] *)
Definition setTempo (bpm : jsnum) (e : t) (h : Host) : t * Host :=
  if negb (initialized e) then (e, h)
  else
    (mk (initialized e) (isPlaying e) (players e) bpm,
     emit (ConsoleTempo bpm) (set_transport_bpm bpm h)).

End AudioEngine.

(** ** sequencer.js: class Sequencer *)

(** [pattern] argument of [setPattern]: any JavaScript value. What the code
    looks at is whether it is an array, its length, and the same of each
    element. *)
Inductive jsrow : Type :=
  | NotArrayRow
  | ArrayRow (cells : list bool).

Inductive jspattern : Type :=
  | NotArray
  | ArrayOf (rows : list jsrow).

Module Sequencer.

Definition numRows : Z := 8.
Definition numSteps : Z := 16.

Record t : Type := mk {
  audioEngine : AudioEngine.t;
  currentStep : Z;
  grid : list (list bool);
  isPlaying : bool;
  activeStepsCache : gmap Z (list Z)
}.

Definition set_audioEngine (e : AudioEngine.t) (s : t) : t :=
  mk e (currentStep s) (grid s) (isPlaying s) (activeStepsCache s).
Definition set_currentStep (c : Z) (s : t) : t :=
  mk (audioEngine s) c (grid s) (isPlaying s) (activeStepsCache s).
Definition set_grid (g : list (list bool)) (s : t) : t :=
  mk (audioEngine s) (currentStep s) g (isPlaying s) (activeStepsCache s).
Definition set_isPlaying (b : bool) (s : t) : t :=
  mk (audioEngine s) (currentStep s) (grid s) b (activeStepsCache s).
Definition set_activeStepsCache (c : gmap Z (list Z)) (s : t) : t :=
  mk (audioEngine s) (currentStep s) (grid s) (isPlaying s) c.

(** [Array(numRows).fill().map(() => Array(numSteps).fill(false))] *)
Definition empty_grid : list (list bool) :=
  replicate (Z.to_nat numRows) (replicate (Z.to_nat numSteps) false).

(** [constructor(audioEngine)] *)
Definition new (e : AudioEngine.t) : t := mk e (-1) empty_grid false ∅.

(** [this.grid[row][step]] as a value: a [TypeError] when [this.grid[row]]
    is [undefined]; an absent element of the row is [undefined], which
    every use in this class coerces to [false]. *)
Definition read_cell (g : list (list bool)) (row step : Z) : result bool :=
  match js_index g row with
  | None => Throw TypeError
  | Some r => Ok (default false (js_index r step))
  end.

(** [this.grid[row][step] = v]. The write is in place for an index inside
    the row; the guards of the callers and the 8 x 16 shape of the grid
    keep it inside. *)
Definition write_cell (g : list (list bool)) (row step : Z) (v : bool)
  : result (list (list bool)) :=
  match js_index g row with
  | None => Throw TypeError
  | Some r => Ok (<[Z.to_nat row := <[Z.to_nat step := v]> r]> g)
  end.

(** [row >= 0 && row < this.numRows && step >= 0 && step < this.numSteps] *)
Definition in_bounds (row step : Z) : bool :=
  (0 <=? row) && (row <? numRows) && (0 <=? step) && (step <? numSteps).

(** [dispatchStepEvent()] *)
Definition dispatchStepEvent (s : t) (h : Host) : Host :=
  emit (StepEvent (currentStep s)) h.

(** The inner loop of [updateActiveStepsCache]: the rows active at [step],
    pushed for [row = 0 .. numRows-1]. *)
Definition activeRowsAt (g : list (list bool)) (step : Z) : result (list Z) :=
  foldM (fun activeRows row =>
           c ← read_cell g row step;
           Ok (if c : bool then activeRows ++ [row] else activeRows))
        (seqZ 0 numRows) [].

(** [updateActiveStepsCache()] *)
Definition updateActiveStepsCache (s : t) : result t :=
  cache ← foldM (fun (cache : gmap Z (list Z)) step =>
                   activeRows ← activeRowsAt (grid s) step;
                   Ok (if decide (0 < length activeRows)%nat
                       then <[step := activeRows]> cache
                       else cache))
                (seqZ 0 numSteps) ∅;
  Ok (set_activeStepsCache cache s).

(** [updateActiveStepCache(row, step)] *)
Definition updateActiveStepCache (row step : Z) (s : t) : result t :=
  isActive ← read_cell (grid s) row step;
  let activeRows := default [] (activeStepsCache s !! step) in
  if isActive : bool then
    if bool_decide (row ∈ activeRows) then Ok s
    else Ok (set_activeStepsCache
               (<[step := activeRows ++ [row]]> (activeStepsCache s)) s)
  else
    let activeRows := filter (fun r => r ≠ row) activeRows in
    if decide (0 < length activeRows)%nat
    then Ok (set_activeStepsCache
               (<[step := activeRows]> (activeStepsCache s)) s)
    else Ok (set_activeStepsCache (delete step (activeStepsCache s)) s).

(** [init()]. Registering [onStep] with [Tone.Transport.scheduleRepeat]
    is the host calling [onStep] from then on. *)
Definition init (s : t) (h : Host) : result (t * Host) :=
  s ← updateActiveStepsCache (set_currentStep (-1) s);
  Ok (s, emit (ConsoleLog "Sequencer initialized") h).

(** [onStep(time)] *)
Definition onStep (tm : time) (s : t) (h : Host) : t * Host :=
  let s := set_currentStep ((currentStep s + 1) `rem` numSteps) s in
  let h :=
    match activeStepsCache s !! currentStep s with
    | Some activeRows =>
        foldl (fun h row => AudioEngine.scheduleNote row tm (audioEngine s) h)
              h activeRows
    | None => h
    end in
  (s, dispatchStepEvent s h).

(** [toggleStep(row, step)]; [now] is what [Tone.now()] returns. *)
Definition toggleStep (row step : Z) (now : time) (s : t) (h : Host)
  : result (bool * t * Host) :=
  if in_bounds row step then
    old ← read_cell (grid s) row step;
    g ← write_cell (grid s) row step (negb old);
    s ← updateActiveStepCache row step (set_grid g s);
    v ← read_cell (grid s) row step;
    let h :=
      if isPlaying s && (currentStep s =? step) && v
      then AudioEngine.scheduleNote row now (audioEngine s) h
      else h in
    v ← read_cell (grid s) row step;
    Ok (v, s, h)
  else Ok (false, s, h).

(** [setStep(row, step, state)] *)
Definition setStep (row step : Z) (state : bool) (s : t) : result t :=
  if in_bounds row step then
    g ← write_cell (grid s) row step state;
    updateActiveStepCache row step (set_grid g s)
  else Ok s.

(** [getStep(row, step)] *)
Definition getStep (row step : Z) (s : t) : result bool :=
  if in_bounds row step then read_cell (grid s) row step
  else Ok false.

(** [getCurrentStep()] *)
Definition getCurrentStep (s : t) : Z := currentStep s.

(** [clearGrid()] *)
Definition clearGrid (s : t) : t :=
  set_activeStepsCache ∅ (set_grid empty_grid s).

(** The loop body of [setPattern]: [this.grid[row] = [...pattern[row]]]
    when [pattern[row]] is an array of [numSteps] elements. *)
Definition setPattern_row (rows : list jsrow) (g : list (list bool)) (row : Z)
  : list (list bool) :=
  match js_index rows row with
  | Some (ArrayRow cells) =>
      if decide (Z.of_nat (length cells) = numSteps)
      then <[Z.to_nat row := cells]> g
      else g
  | _ => g
  end.

(** [setPattern(pattern)] *)
Definition setPattern (pattern : jspattern) (s : t) : result t :=
  match pattern with
  | ArrayOf rows =>
      if decide (Z.of_nat (length rows) = numRows) then
        updateActiveStepsCache
          (set_grid (foldl (setPattern_row rows) (grid s) (seqZ 0 numRows)) s)
      else Ok s
  | NotArray => Ok s
  end.

(** [start()] *)
Definition start (s : t) (h : Host) : t * Host :=
  let '(e, h) := AudioEngine.start (audioEngine s) h in
  (set_isPlaying true (set_audioEngine e s), h).

(** [stop()] *)
Definition stop (s : t) (h : Host) : t * Host :=
  let '(e, h) := AudioEngine.stop (audioEngine s) h in
  let s := set_currentStep (-1) (set_isPlaying false (set_audioEngine e s)) in
  (s, dispatchStepEvent s h).

(** [setTempo(bpm)] *)
Definition setTempo (bpm : jsnum) (s : t) (h : Host) : t * Host :=
  let '(e, h) := AudioEngine.setTempo bpm (audioEngine s) h in
  (set_audioEngine e s, h).

(** [isSequencerPlaying()] *)
Definition isSequencerPlaying (s : t) : bool := isPlaying s.

End Sequencer.

(** ** The calls a client can make, and runs of them *)

(** The sequencer and the host it acts on. The engine the user interface
    initialises is the object the sequencer holds in [audioEngine]. *)
Definition state : Type := Sequencer.t * Host.

Inductive call : Type :=
  | EngineInit (loaded : bool)
  | Init
  | OnStep (tm : time)
  | ToggleStep (row step : Z) (now : time)
  | SetStep (row step : Z) (st : bool)
  | GetStep (row step : Z)
  | ClearGrid
  | SetPattern (pattern : jspattern)
  | Start
  | Stop
  | SetTempo (bpm : jsnum).

Definition exec (c : call) (st : state) : result state :=
  let '(s, h) := st in
  match c with
  | EngineInit loaded =>
      let '(_, e, h) := AudioEngine.init loaded (Sequencer.audioEngine s) h in
      Ok (Sequencer.set_audioEngine e s, h)
  | Init => Sequencer.init s h
  | OnStep tm => Ok (Sequencer.onStep tm s h)
  | ToggleStep row step now =>
      r ← Sequencer.toggleStep row step now s h;
      Ok (r.1.2, r.2)
  | SetStep row step v => s ← Sequencer.setStep row step v s; Ok (s, h)
  | GetStep row step => _ ← Sequencer.getStep row step s; Ok (s, h)
  | ClearGrid => Ok (Sequencer.clearGrid s, h)
  | SetPattern p => s ← Sequencer.setPattern p s; Ok (s, h)
  | Start => Ok (Sequencer.start s h)
  | Stop => Ok (Sequencer.stop s h)
  | SetTempo bpm => Ok (Sequencer.setTempo bpm s h)
  end.

Definition run (cs : list call) (st : state) : result state :=
  foldM (fun st c => exec c st) cs st.

(** What [new Sequencer(new AudioEngine())] builds, in a fresh page. *)
Definition initial : state := (Sequencer.new AudioEngine.new, new_Host).

(** The state a run from [initial] ends in. *)
Definition after (cs : list call) : state :=
  match run cs initial with
  | Ok st => st
  | Throw _ => initial
  end.

(** ** Reading the grid and the cache *)

(** [grid[row][step]] is true. *)
Definition cell (g : list (list bool)) (row step : Z) : bool :=
  match js_index g row with
  | Some r => default false (js_index r step)
  | None => false
  end.

(** The entry of the Active-Step Index for [step]; a step without entry
    has nothing to trigger. *)
Definition entry (cache : gmap Z (list Z)) (step : Z) : list Z :=
  default [] (cache !! step).

(** The grid has [numRows] rows of [numSteps] cells. *)
Definition wf_grid (g : list (list bool)) : Prop :=
  Z.of_nat (length g) = Sequencer.numRows ∧
  Forall (fun r => Z.of_nat (length r) = Sequencer.numSteps) g.

#[global] Instance wf_grid_dec g : Decision (wf_grid g).
Proof. unfold wf_grid. apply _. Defined.

(** The index-consistency invariant. *)
Definition index_consistent (s : Sequencer.t) : Prop :=
  forall step row,
    row ∈ entry (Sequencer.activeStepsCache s) step <->
    cell (Sequencer.grid s) row step = true.

(** No entry is empty and none lists a row twice. *)
Definition entries_tidy (cache : gmap Z (list Z)) : Prop :=
  forall step l, cache !! step = Some l -> l ≠ [] ∧ NoDup l.

Definition Inv (s : Sequencer.t) : Prop :=
  wf_grid (Sequencer.grid s) ∧ index_consistent s ∧
  entries_tidy (Sequencer.activeStepsCache s).

(** The events a call added to the trace. *)
Definition emitted (before after : Host) : list event :=
  drop (length (trace before)) (trace after).

Definition scheduled_rows (evs : list event) : list Z :=
  omap (fun e => match e with ScheduleNote r _ => Some r | _ => None end) evs.

Definition step_events (evs : list event) : list Z :=
  omap (fun e => match e with StepEvent s => Some s | _ => None end) evs.

Definition ascending (l : list Z) : Prop := StronglySorted Z.lt l.

(** ** Definitions used to state the properties *)

(** The rows active at a step, in ascending order. *)
Definition rows_of (g : list (list bool)) (step : Z) : list Z :=
  filter (fun row => cell g row step = true) (seqZ 0 Sequencer.numRows).

(** The cache the rebuild produces: [rows_of] at every step that has an
    active row, and nothing for the other steps. *)
Definition rebuilt (g : list (list bool)) (c : gmap Z (list Z)) : Prop :=
  forall step,
    c !! step = if decide (rows_of g step = []) then None
                else Some (rows_of g step).

(** What [updateActiveStepCache] leaves in the entry of its step. *)
Definition patch_entry (active : bool) (row : Z) (e : list Z) : list Z :=
  if active then (if bool_decide (row ∈ e) then e else e ++ [row])
  else filter (fun r => r ≠ row) e.

(** The host after the immediate trigger of [toggleStep]. *)
Definition immediate (row step : Z) (now : time) (v : bool) (s : Sequencer.t)
  (h : Host) : Host :=
  if Sequencer.isPlaying s && (Sequencer.currentStep s =? step) && v
  then AudioEngine.scheduleNote row now (Sequencer.audioEngine s) h
  else h.

(** The row [setPattern] leaves at index [row]: the pattern's row when it is
    an array of [numSteps] cells, the grid's own row otherwise. *)
Definition pattern_row (rows : list jsrow) (g : list (list bool)) (row : Z)
  : option (list bool) :=
  match js_index rows row with
  | Some (ArrayRow cells) =>
      if decide (Z.of_nat (length cells) = Sequencer.numSteps)
      then Some cells else js_index g row
  | _ => js_index g row
  end.

(** The events of one [audioEngine.scheduleNote(i, tm)]. *)
Definition note_events (e : AudioEngine.t) (tm : time) (i : Z) : list event :=
  ScheduleNote i tm ::
  (if AudioEngine.initialized e && bool_decide (i ∈ AudioEngine.players e)
   then [PlayerStart i tm] else []).

(** The events of one [onStep(tm)]. *)
Definition onStep_events (tm : time) (s : Sequencer.t) : list event :=
  let step := (Sequencer.currentStep s + 1) `rem` Sequencer.numSteps in
  (entry (Sequencer.activeStepsCache s) step ≫= note_events (Sequencer.audioEngine s) tm)
  ++ [StepEvent step].

(** The step-changed notifications of a call and the current step it
    leaves. *)
Definition step_events_of (c : call) (s : Sequencer.t) : list Z :=
  match c with
  | OnStep _ => [(Sequencer.currentStep s + 1) `rem` Sequencer.numSteps]
  | Stop => [-1]
  | _ => []
  end.

Definition currentStep_after (c : call) (s : Sequencer.t) : Z :=
  match c with
  | OnStep _ => (Sequencer.currentStep s + 1) `rem` Sequencer.numSteps
  | Stop | Init => -1
  | _ => Sequencer.currentStep s
  end.

Definition is_onStep (c : call) : bool :=
  match c with OnStep _ => true | _ => false end.

(** [stop()] and [init()] put the counter back to -1. *)
Definition resets (c : call) : bool :=
  match c with Stop | Init => true | _ => false end.

(** The number of [onStep] invocations in a run. *)
Definition count_onStep (cs : list call) : Z :=
  Z.of_nat (length (filter (fun c => is_onStep c = true) cs)).

(** The argument is not an array, or its length is not [numRows]. *)
Definition top_level_mismatch (pattern : jspattern) : Prop :=
  match pattern with
  | NotArray => True
  | ArrayOf rows => Z.of_nat (length rows) ≠ Sequencer.numRows
  end.

(** A row of the argument that is not an array of [numSteps] elements. *)
Definition row_mismatch (r : jsrow) : Prop :=
  match r with
  | NotArrayRow => True
  | ArrayRow cells => Z.of_nat (length cells) ≠ Sequencer.numSteps
  end.

(** The row count or the step count of some row differs from the
    configured dimensions. *)
Definition mismatched (pattern : jspattern) : Prop :=
  match pattern with
  | NotArray => True
  | ArrayOf rows =>
      Z.of_nat (length rows) ≠ Sequencer.numRows ∨ Exists row_mismatch rows
  end.

(** Seven well-formed rows and one of 15 steps. *)
Definition short_row_pattern : jspattern :=
  ArrayOf (ArrayRow (replicate 16 true) :: ArrayRow (replicate 15 true) ::
           replicate 6 (ArrayRow (replicate 16 false))).

(** The rows [onStep(tm)] calls [scheduleNote] for, in call order. *)
Definition triggered_rows (tm : time) (s : Sequencer.t) (h : Host) : list Z :=
  scheduled_rows (emitted h (Sequencer.onStep tm s h).2).

(** The players started, with the time given to [player.start]. *)
Definition player_starts (evs : list event) : list (Z * time) :=
  omap (fun e => match e with PlayerStart r t => Some (r, t) | _ => None end)
       evs.

(** What the last [start()] or [stop()] of a run leaves in [isPlaying];
    [b] when the run has neither. *)
Definition playing_after (cs : list call) (b : bool) : bool :=
  foldl (fun b c => match c with Start => true | Stop => false | _ => b end)
        b cs.

(** The audio engine and the Tone transport agree: the transport runs
    exactly when the engine says it plays; a playing engine is initialised
    and its sequencer is marked playing; an initialised engine has a player
    for each sample path and the tempo of the transport. *)
Definition engine_consistent (st : state) : Prop :=
  let e := Sequencer.audioEngine st.1 in
  transport_started st.2 = AudioEngine.isPlaying e ∧
  (AudioEngine.isPlaying e = true ->
   AudioEngine.initialized e = true ∧ Sequencer.isPlaying st.1 = true) ∧
  (AudioEngine.initialized e = true ->
   AudioEngine.players e = list_to_set (seqZ 0 AudioEngine.samplePaths_length) ∧
   transport_bpm st.2 = AudioEngine.tempo e).

(** The calls that read or edit the pattern. *)
Definition is_edit (c : call) : bool :=
  match c with
  | ToggleStep _ _ _ | SetStep _ _ _ | GetStep _ _ | ClearGrid
  | SetPattern _ => true
  | _ => false
  end.

(** * Properties *)

(** ** Arrays and cells *)

Lemma bind_Ok {A B} (f : A -> result B) a : (Ok a ≫= f) = f a.
Proof. reflexivity. Qed.

Lemma Ok_inj {A} (a b : A) : Ok a = Ok b -> a = b.
Proof. by intros [= ->]. Qed.

Lemma foldM_nil {A B} (f : B -> A -> result B) b : foldM f [] b = Ok b.
Proof. reflexivity. Qed.

Lemma foldM_cons {A B} (f : B -> A -> result B) x l b :
  foldM f (x :: l) b = (f b x ≫= foldM f l).
Proof. reflexivity. Qed.

Lemma js_index_Some {A} (a : list A) i x :
  js_index a i = Some x <-> 0 <= i ∧ a !! Z.to_nat i = Some x.
Proof.
  unfold js_index. destruct (decide (0 <= i)) as [Hi|Hi].
  - split; [by intros ->|by intros [_ ->]].
  - split; [done|by intros [? _]].
Qed.

Lemma js_index_lt {A} (a : list A) i :
  0 <= i < Z.of_nat (length a) -> is_Some (js_index a i).
Proof.
  intros Hi. unfold js_index. rewrite decide_True by lia.
  apply lookup_lt_is_Some. lia.
Qed.

Lemma js_index_ge {A} (a : list A) i :
  ¬ (0 <= i < Z.of_nat (length a)) -> js_index a i = None.
Proof.
  intros Hi. unfold js_index. case_decide; [|done].
  apply lookup_ge_None. lia.
Qed.

Lemma js_index_insert {A} (a : list A) i j x :
  0 <= i < Z.of_nat (length a) -> 0 <= j ->
  js_index (<[Z.to_nat i := x]> a) j =
  if decide (i = j) then Some x else js_index a j.
Proof.
  intros Hi Hj. unfold js_index.
  destruct (decide (0 <= j)) as [_|]; [|done].
  destruct (decide (i = j)) as [->|Hij].
  - apply list_lookup_insert_eq. lia.
  - apply list_lookup_insert_ne. lia.
Qed.

Lemma in_bounds_spec row step :
  Sequencer.in_bounds row step = true <->
  0 <= row < Sequencer.numRows ∧ 0 <= step < Sequencer.numSteps.
Proof.
  unfold Sequencer.in_bounds.
  rewrite !andb_true_iff, !Z.leb_le, !Z.ltb_lt. lia.
Qed.

Lemma in_bounds_false row step :
  Sequencer.in_bounds row step = false <->
  ¬ (0 <= row < Sequencer.numRows ∧ 0 <= step < Sequencer.numSteps).
Proof.
  rewrite <- in_bounds_spec. destruct (Sequencer.in_bounds row step); naive_solver.
Qed.

Lemma cell_true_bounds g row step :
  wf_grid g -> cell g row step = true ->
  0 <= row < Sequencer.numRows ∧ 0 <= step < Sequencer.numSteps.
Proof.
  intros [Hlen Hrows] Hc. unfold cell in Hc.
  destruct (js_index g row) as [r|] eqn:Hr; [|done].
  apply js_index_Some in Hr as [Hrow Hr].
  pose proof (lookup_lt_Some _ _ _ Hr) as Hlt.
  rewrite Forall_lookup in Hrows. specialize (Hrows _ _ Hr). simpl in Hrows.
  destruct (js_index r step) as [b|] eqn:Hs; [|done].
  apply js_index_Some in Hs as [Hstep Hs].
  pose proof (lookup_lt_Some _ _ _ Hs). lia.
Qed.

Lemma wf_grid_row g row :
  wf_grid g -> 0 <= row < Sequencer.numRows ->
  exists r, js_index g row = Some r ∧ Z.of_nat (length r) = Sequencer.numSteps.
Proof.
  intros [Hlen Hrows] Hrow.
  destruct (js_index_lt g row) as [r Hr]; [lia|].
  exists r. split; [done|].
  apply js_index_Some in Hr as [_ Hr].
  rewrite Forall_lookup in Hrows. exact (Hrows _ _ Hr).
Qed.

Lemma read_cell_wf g row step :
  wf_grid g -> 0 <= row < Sequencer.numRows ->
  Sequencer.read_cell g row step = Ok (cell g row step).
Proof.
  intros Hwf Hrow. destruct (wf_grid_row g row Hwf Hrow) as (r & Hr & _).
  unfold Sequencer.read_cell, cell. by rewrite Hr.
Qed.

Lemma wf_empty_grid : wf_grid Sequencer.empty_grid.
Proof. apply (bool_decide_unpack _). by vm_compute. Qed.

Lemma cell_empty_grid row step : cell Sequencer.empty_grid row step = false.
Proof.
  unfold cell, Sequencer.empty_grid.
  destruct (js_index _ row) as [r|] eqn:Hr; [|done].
  apply js_index_Some in Hr as [_ Hr].
  apply lookup_replicate in Hr as [-> _].
  destruct (js_index _ step) as [b|] eqn:Hs; [|done].
  apply js_index_Some in Hs as [_ Hs].
  by apply lookup_replicate in Hs as [-> _].
Qed.

(** Writing a cell inside the grid: the shape stays, the cell holds the
    value written and every other cell is as before. *)
Lemma write_cell_wf g row step v :
  wf_grid g -> Sequencer.in_bounds row step = true ->
  exists g', Sequencer.write_cell g row step v = Ok g' ∧ wf_grid g' ∧
    forall r s, cell g' r s =
                if decide (r = row ∧ s = step) then v else cell g r s.
Proof.
  intros Hwf Hb. apply in_bounds_spec in Hb as [Hrow Hstep].
  destruct (wf_grid_row g row Hwf Hrow) as (r0 & Hr0 & Hlen0).
  destruct Hwf as [Hlen Hrows].
  unfold Sequencer.write_cell. rewrite Hr0. eexists. split; [done|].
  split.
  - split; [by rewrite length_insert|].
    apply Forall_insert; [done|]. by rewrite length_insert.
  - intros r s. unfold cell.
    destruct (decide (0 <= r)) as [Hr|Hr].
    2:{ rewrite !(js_index_ge _ r), decide_False by lia. done. }
    rewrite js_index_insert by lia.
    destruct (decide (row = r)) as [->|Hne].
    + rewrite Hr0.
      destruct (decide (0 <= s)) as [Hs|Hs].
      2:{ rewrite !(js_index_ge _ s), decide_False by lia. done. }
      rewrite js_index_insert by lia.
      destruct (decide (step = s)) as [->|Hne'].
      * by rewrite decide_True.
      * by rewrite decide_False by (intros [_ ?]; congruence).
    + by rewrite decide_False by (intros [? _]; congruence).
Qed.

(** ** The full rebuild of the cache *)

Lemma elem_of_rows_of g step row :
  wf_grid g -> row ∈ rows_of g step <-> cell g row step = true.
Proof.
  intros Hwf. unfold rows_of. rewrite list_elem_of_filter, elem_of_seqZ.
  split; [tauto|]. intros Hc. split; [done|].
  apply cell_true_bounds in Hc as [? _]; [lia|done].
Qed.

Lemma NoDup_rows_of g step : NoDup (rows_of g step).
Proof. apply NoDup_filter, NoDup_seqZ. Qed.

Lemma ascending_seqZ m n : ascending (seqZ m n).
Proof.
  unfold ascending. destruct (decide (0 <= n)) as [Hn|Hn].
  2:{ rewrite seqZ_nil by lia. constructor. }
  rewrite <- (Z2Nat.id n) by done. generalize (Z.to_nat n) as k. clear.
  intros k. revert m. induction k as [|k IH]; intros m.
  - rewrite seqZ_nil by lia. constructor.
  - rewrite seqZ_cons by lia. constructor.
    + replace (Z.pred (Z.of_nat (S k))) with (Z.of_nat k) by lia. apply IH.
    + apply Forall_forall. intros x Hx%elem_of_seqZ. lia.
Qed.

Lemma ascending_filter (P : Z -> Prop) `{!forall x, Decision (P x)} l :
  ascending l -> ascending (filter P l).
Proof.
  unfold ascending. induction 1 as [|x l Hs IH Hx]; [constructor|].
  rewrite filter_cons. case_decide; [|done].
  constructor; [done|].
  apply Forall_forall. intros y [_ Hy]%list_elem_of_filter.
  rewrite Forall_forall in Hx. by apply Hx.
Qed.

Lemma ascending_rows_of g step : ascending (rows_of g step).
Proof. apply ascending_filter, ascending_seqZ. Qed.

Lemma rows_of_nil_out g step :
  wf_grid g -> ¬ (0 <= step < Sequencer.numSteps) -> rows_of g step = [].
Proof.
  intros Hwf Hs. apply elem_of_nil_inv. intros row Hrow.
  apply elem_of_rows_of in Hrow; [|done].
  apply cell_true_bounds in Hrow; [tauto|done].
Qed.

Lemma activeRowsAt_loop g step rows acc :
  wf_grid g -> Forall (fun row => 0 <= row < Sequencer.numRows) rows ->
  foldM (fun activeRows row =>
           c ← Sequencer.read_cell g row step;
           Ok (if c : bool then activeRows ++ [row] else activeRows)) rows acc
  = Ok (acc ++ filter (fun row => cell g row step = true) rows).
Proof.
  intros Hwf Hrows. revert acc.
  induction Hrows as [|row rows Hrow _ IH]; intros acc.
  - by rewrite foldM_nil, filter_nil, app_nil_r.
  - rewrite foldM_cons, read_cell_wf, !bind_Ok, IH, filter_cons by done.
    destruct (cell g row step) eqn:Hc.
    + rewrite decide_True by done. by rewrite <- app_assoc.
    + by rewrite decide_False by done.
Qed.

Lemma activeRowsAt_wf g step :
  wf_grid g -> Sequencer.activeRowsAt g step = Ok (rows_of g step).
Proof.
  intros Hwf. unfold Sequencer.activeRowsAt.
  rewrite activeRowsAt_loop; [done|done|].
  apply Forall_seqZ. lia.
Qed.

Lemma rebuild_loop g steps cache :
  wf_grid g ->
  exists cache',
    foldM (fun (cache : gmap Z (list Z)) step =>
             activeRows ← Sequencer.activeRowsAt g step;
             Ok (if decide (0 < length activeRows)%nat
                 then <[step := activeRows]> cache
                 else cache)) steps cache = Ok cache' ∧
    forall step,
      cache' !! step =
      if decide (step ∈ steps ∧ rows_of g step ≠ [])
      then Some (rows_of g step) else cache !! step.
Proof.
  intros Hwf. revert cache.
  induction steps as [|s steps IH]; intros cache.
  - exists cache. split; [done|]. intros step.
    rewrite decide_False; [done|]. intros [[]%elem_of_nil _].
  - rewrite foldM_cons, activeRowsAt_wf, !bind_Ok by done.
    match goal with |- context [foldM _ steps ?c] =>
      destruct (IH c) as (cache' & -> & Hlk) end.
    exists cache'. split; [done|]. intros step. rewrite Hlk.
    destruct (decide (step ∈ steps ∧ rows_of g step ≠ [])) as [[Hin Hne]|Hn].
    + rewrite decide_True; [done|]. split; [by right|done].
    + destruct (decide (step = s)) as [->|Hs].
      * destruct (decide (rows_of g s = [])) as [Hnil|Hne].
        -- rewrite Hnil. rewrite (decide_False (P:=(0 < length [])%nat));
             [|simpl; lia].
           rewrite decide_False; [done|]. by intros [_ ?].
        -- rewrite (decide_True (P:=(0 < length (rows_of g s))%nat)).
           2:{ destruct (rows_of g s); [done|simpl; lia]. }
           rewrite lookup_insert_eq.
           rewrite decide_True; [done|]. split; [by left|done].
      * assert (cache !! step =
                (if decide (0 < length (rows_of g s))%nat
                 then <[s:=rows_of g s]> cache else cache) !! step) as <-.
        { case_decide; [|done]. by rewrite lookup_insert_ne. }
        rewrite decide_False; [done|].
        intros [[?|?]%elem_of_cons ?]; [done|]. apply Hn. done.
Qed.

Lemma updateActiveStepsCache_wf s :
  wf_grid (Sequencer.grid s) ->
  exists cache,
    Sequencer.updateActiveStepsCache s =
      Ok (Sequencer.set_activeStepsCache cache s) ∧
    rebuilt (Sequencer.grid s) cache.
Proof.
  intros Hwf. unfold Sequencer.updateActiveStepsCache.
  destruct (rebuild_loop (Sequencer.grid s) (seqZ 0 Sequencer.numSteps) ∅ Hwf)
    as (cache & -> & Hlk).
  exists cache. split; [done|]. intros step. rewrite Hlk, lookup_empty.
  destruct (decide (rows_of (Sequencer.grid s) step = [])) as [Hnil|Hne].
  - rewrite decide_False; [done|]. by intros [_ ?].
  - destruct (decide (0 <= step < Sequencer.numSteps)) as [Hs|Hs].
    + rewrite decide_True; [done|]. split; [|done]. apply elem_of_seqZ. lia.
    + by rewrite rows_of_nil_out in Hne.
Qed.

Lemma rebuilt_entry g cache step :
  rebuilt g cache -> entry cache step = rows_of g step.
Proof.
  intros Hc. unfold entry. rewrite (Hc step).
  by destruct (decide (rows_of g step = [])) as [->|].
Qed.

Lemma rebuilt_tidy g cache : rebuilt g cache -> entries_tidy cache.
Proof.
  intros Hc step l Hl. rewrite (Hc step) in Hl.
  destruct (decide (rows_of g step = [])); [done|].
  injection Hl as <-. split; [done|apply NoDup_rows_of].
Qed.

Lemma rebuilt_Inv s cache :
  wf_grid (Sequencer.grid s) -> rebuilt (Sequencer.grid s) cache ->
  Inv (Sequencer.set_activeStepsCache cache s).
Proof.
  intros Hwf Hc. split; [done|]. split; [|by eapply rebuilt_tidy].
  intros step row. simpl. rewrite (rebuilt_entry _ _ _ Hc).
  by apply elem_of_rows_of.
Qed.

(** ** The patch of one cache entry *)

Lemma elem_of_patch_entry active row e r :
  r ∈ patch_entry active row e <->
  if decide (r = row) then active = true else r ∈ e.
Proof.
  unfold patch_entry. destruct active.
  - case_bool_decide as Hin.
    + destruct (decide (r = row)) as [->|]; [tauto|done].
    + rewrite elem_of_app, list_elem_of_singleton.
      destruct (decide (r = row)) as [->|]; tauto.
  - rewrite list_elem_of_filter.
    destruct (decide (r = row)) as [->|]; [split; [tauto|done]|tauto].
Qed.

Lemma NoDup_patch_entry active row e :
  NoDup e -> NoDup (patch_entry active row e).
Proof.
  intros Hnd. unfold patch_entry. destruct active.
  - case_bool_decide as Hin; [done|].
    apply NoDup_app. split; [done|]. split; [|apply NoDup_singleton].
    intros x Hx ->%list_elem_of_singleton. done.
  - by apply NoDup_filter.
Qed.

Lemma entries_tidy_entry cache step :
  entries_tidy cache -> NoDup (entry cache step).
Proof.
  intros Ht. unfold entry. destruct (cache !! step) as [l|] eqn:Hl; simpl.
  - by destruct (Ht _ _ Hl).
  - constructor.
Qed.

Lemma updateActiveStepCache_spec row step s :
  wf_grid (Sequencer.grid s) -> 0 <= row < Sequencer.numRows ->
  exists cache,
    Sequencer.updateActiveStepCache row step s =
      Ok (Sequencer.set_activeStepsCache cache s) ∧
    (forall step',
        entry cache step' =
        if decide (step' = step)
        then patch_entry (cell (Sequencer.grid s) row step) row
               (entry (Sequencer.activeStepsCache s) step)
        else entry (Sequencer.activeStepsCache s) step') ∧
    (entries_tidy (Sequencer.activeStepsCache s) -> entries_tidy cache).
Proof.
  intros Hwf Hrow. unfold Sequencer.updateActiveStepCache.
  rewrite read_cell_wf, bind_Ok by done.
  fold (entry (Sequencer.activeStepsCache s) step).
  set (e := entry (Sequencer.activeStepsCache s) step).
  set (c := Sequencer.activeStepsCache s).
  assert (forall (c' : gmap Z (list Z)) l,
             (forall step', step' ≠ step -> c' !! step' = c !! step') ->
             entry c' step = l ->
             forall step', entry c' step' =
                           if decide (step' = step) then l else entry c step')
    as Hentry.
  { intros c' l Hother Hl step'. destruct (decide (step' = step)) as [->|Hne];
      [done|]. unfold entry. by rewrite Hother. }
  assert (forall (c' : gmap Z (list Z)),
             (forall step', step' ≠ step -> c' !! step' = c !! step') ->
             (forall l, c' !! step = Some l -> l ≠ [] ∧ NoDup l) ->
             entries_tidy c -> entries_tidy c') as Htidy.
  { intros c' Hother Hat Ht step' l Hl.
    destruct (decide (step' = step)) as [->|Hne]; [by apply Hat|].
    rewrite Hother in Hl by done. by apply (Ht step'). }
  destruct (cell (Sequencer.grid s) row step) eqn:Hc; simpl.
  - case_bool_decide as Hin.
    + exists c. split; [by destruct s|]. split; [|done].
      intros step'. by destruct (decide (step' = step)) as [->|].
    + eexists. split; [done|]. split.
      * apply Hentry.
        -- intros step' Hne. by rewrite lookup_insert_ne.
        -- unfold entry. by rewrite lookup_insert_eq.
      * intros Ht. apply Htidy; [| |done].
        -- intros step' Hne. by rewrite lookup_insert_ne.
        -- intros l. rewrite lookup_insert_eq. intros [= <-].
           split; [by destruct e|].
           pose proof (NoDup_patch_entry true row e) as Hnd.
           unfold patch_entry in Hnd. rewrite bool_decide_eq_false_2 in Hnd by done.
           apply Hnd. by apply entries_tidy_entry.
  - destruct (decide (0 < length (filter (fun r => r ≠ row) e))%nat) as [Hlen|Hlen].
    + eexists. split; [done|]. split.
      * apply Hentry.
        -- intros step' Hne. by rewrite lookup_insert_ne.
        -- unfold entry. by rewrite lookup_insert_eq.
      * intros Ht. apply Htidy; [| |done].
        -- intros step' Hne. by rewrite lookup_insert_ne.
        -- intros l. rewrite lookup_insert_eq. intros [= <-].
           split; [intros Hnil; rewrite Hnil in Hlen; simpl in Hlen; lia|].
           apply NoDup_filter. by apply entries_tidy_entry.
    + eexists. split; [done|]. split.
      * apply Hentry.
        -- intros step' Hne. by rewrite lookup_delete_ne.
        -- unfold entry. rewrite lookup_delete_eq. simpl.
           destruct (filter (fun r => r ≠ row) e); [done|simpl in Hlen; lia].
      * intros Ht. apply Htidy; [| |done].
        -- intros step' Hne. by rewrite lookup_delete_ne.
        -- intros l. by rewrite lookup_delete_eq.
Qed.

(** ** Writing one cell and patching its entry *)

(** The common part of [setStep] and [toggleStep]: the write of the cell
    followed by [updateActiveStepCache]. *)
Lemma write_then_patch row step v s :
  Inv s -> Sequencer.in_bounds row step = true ->
  exists g cache,
    Sequencer.write_cell (Sequencer.grid s) row step v = Ok g ∧
    Sequencer.updateActiveStepCache row step (Sequencer.set_grid g s) =
      Ok (Sequencer.set_activeStepsCache cache (Sequencer.set_grid g s)) ∧
    Inv (Sequencer.set_activeStepsCache cache (Sequencer.set_grid g s)) ∧
    (forall r c, cell g r c =
                 if decide (r = row ∧ c = step) then v
                 else cell (Sequencer.grid s) r c) ∧
    (forall step',
        entry cache step' =
        if decide (step' = step)
        then patch_entry v row (entry (Sequencer.activeStepsCache s) step)
        else entry (Sequencer.activeStepsCache s) step').
Proof.
  intros (Hwf & Hic & Ht) Hb.
  destruct (write_cell_wf _ row step v Hwf Hb) as (g & Hw & Hwf' & Hcell).
  pose proof Hb as [Hrow Hstep]%in_bounds_spec.
  destruct (updateActiveStepCache_spec row step (Sequencer.set_grid g s))
    as (cache & Hu & Hentry & Htidy); [done|done|].
  simpl in Hentry, Htidy.
  assert (cell g row step = v) as Hv.
  { rewrite Hcell. by rewrite decide_True. }
  rewrite Hv in Hentry.
  exists g, cache. split; [done|]. split; [done|]. split; [|done].
  split; [done|]. split; [|by apply Htidy].
  intros step' r. simpl. rewrite Hentry, Hcell.
  destruct (decide (step' = step)) as [->|Hne].
  - rewrite elem_of_patch_entry.
    destruct (decide (r = row)) as [->|Hr].
    + by rewrite decide_True.
    + rewrite decide_False by (intros [? _]; done). apply Hic.
  - rewrite decide_False by (intros [_ ?]; done). apply Hic.
Qed.

Lemma setStep_spec row step v s :
  Inv s -> Sequencer.in_bounds row step = true ->
  exists g cache,
    Sequencer.setStep row step v s =
      Ok (Sequencer.set_activeStepsCache cache (Sequencer.set_grid g s)) ∧
    Inv (Sequencer.set_activeStepsCache cache (Sequencer.set_grid g s)) ∧
    (forall r c, cell g r c =
                 if decide (r = row ∧ c = step) then v
                 else cell (Sequencer.grid s) r c) ∧
    (forall step',
        entry cache step' =
        if decide (step' = step)
        then patch_entry v row (entry (Sequencer.activeStepsCache s) step)
        else entry (Sequencer.activeStepsCache s) step').
Proof.
  intros HI Hb.
  destruct (write_then_patch row step v s HI Hb)
    as (g & cache & Hw & Hu & HI' & Hcell & Hentry).
  exists g, cache. split; [|done].
  unfold Sequencer.setStep. by rewrite Hb, Hw, bind_Ok.
Qed.

Lemma toggleStep_spec row step now s h :
  Inv s -> Sequencer.in_bounds row step = true ->
  let v := negb (cell (Sequencer.grid s) row step) in
  exists g cache,
    Sequencer.toggleStep row step now s h =
      Ok (v, Sequencer.set_activeStepsCache cache (Sequencer.set_grid g s),
          immediate row step now v s h) ∧
    Sequencer.write_cell (Sequencer.grid s) row step v = Ok g ∧
    Inv (Sequencer.set_activeStepsCache cache (Sequencer.set_grid g s)) ∧
    (forall r c, cell g r c =
                 if decide (r = row ∧ c = step) then v
                 else cell (Sequencer.grid s) r c) ∧
    (forall step',
        entry cache step' =
        if decide (step' = step)
        then patch_entry v row (entry (Sequencer.activeStepsCache s) step)
        else entry (Sequencer.activeStepsCache s) step').
Proof.
  intros HI Hb v.
  destruct (write_then_patch row step v s HI Hb)
    as (g & cache & Hw & Hu & HI' & Hcell & Hentry).
  exists g, cache. split; [|done].
  pose proof Hb as [Hrow Hstep]%in_bounds_spec.
  unfold Sequencer.toggleStep. rewrite Hb.
  rewrite read_cell_wf, bind_Ok by (done || apply HI).
  fold v. rewrite Hw, bind_Ok, Hu, bind_Ok.
  rewrite !read_cell_wf, !bind_Ok by (done || apply HI').
  simpl. rewrite Hcell, decide_True by done. done.
Qed.

Lemma toggleStep_out row step now s h :
  Sequencer.in_bounds row step = false ->
  Sequencer.toggleStep row step now s h = Ok (false, s, h).
Proof. intros Hb. unfold Sequencer.toggleStep. by rewrite Hb. Qed.

Lemma setStep_out row step v s :
  Sequencer.in_bounds row step = false -> Sequencer.setStep row step v s = Ok s.
Proof. intros Hb. unfold Sequencer.setStep. by rewrite Hb. Qed.

Lemma getStep_out row step s :
  Sequencer.in_bounds row step = false -> Sequencer.getStep row step s = Ok false.
Proof. intros Hb. unfold Sequencer.getStep. by rewrite Hb. Qed.

(** ** Bulk replacement *)

Lemma setPattern_row_length rows g row :
  length (Sequencer.setPattern_row rows g row) = length g.
Proof.
  unfold Sequencer.setPattern_row.
  destruct (js_index rows row) as [[|cells]|]; [done| |done].
  case_decide; [|done]. by rewrite length_insert.
Qed.

Lemma setPattern_row_index rows g x row :
  0 <= x < Z.of_nat (length g) -> 0 <= row ->
  js_index (Sequencer.setPattern_row rows g x) row =
  if decide (x = row) then pattern_row rows g row else js_index g row.
Proof.
  intros Hx Hrow. unfold Sequencer.setPattern_row, pattern_row.
  destruct (decide (x = row)) as [->|Hne].
  - destruct (js_index rows row) as [[|cells]|]; [done| |done].
    case_decide; [|done]. rewrite js_index_insert by done.
    by rewrite decide_True.
  - destruct (js_index rows x) as [[|cells]|]; [done| |done].
    case_decide; [|done]. rewrite js_index_insert by done.
    by rewrite decide_False.
Qed.

Lemma pattern_row_setPattern_row rows g x row :
  0 <= x < Z.of_nat (length g) -> 0 <= row ->
  pattern_row rows (Sequencer.setPattern_row rows g x) row =
  pattern_row rows g row.
Proof.
  intros Hx Hrow. unfold pattern_row.
  rewrite setPattern_row_index by done.
  destruct (decide (x = row)) as [->|Hne]; [|done].
  unfold pattern_row.
  destruct (js_index rows row) as [[|cells]|]; [done| |done].
  by case_decide.
Qed.

Lemma setPattern_loop rows l g :
  Forall (fun x => 0 <= x < Z.of_nat (length g)) l ->
  length (foldl (Sequencer.setPattern_row rows) g l) = length g ∧
  forall row, 0 <= row ->
    js_index (foldl (Sequencer.setPattern_row rows) g l) row =
    if decide (row ∈ l) then pattern_row rows g row else js_index g row.
Proof.
  revert g. induction l as [|x l IH]; intros g Hl.
  - split; [done|]. intros row _. rewrite decide_False; [done|].
    apply not_elem_of_nil.
  - apply Forall_cons in Hl as [Hx Hl]. simpl.
    destruct (IH (Sequencer.setPattern_row rows g x)) as [Hlen Hidx].
    { by rewrite setPattern_row_length. }
    split; [by rewrite Hlen, setPattern_row_length|].
    intros row Hrow. rewrite Hidx by done.
    rewrite pattern_row_setPattern_row, setPattern_row_index by done.
    destruct (decide (row ∈ l)) as [Hin|Hnin].
    + rewrite decide_True; [done|]. by right.
    + destruct (decide (x = row)) as [->|Hne].
      * rewrite decide_True; [done|]. by left.
      * rewrite decide_False; [done|].
        intros [?|?]%elem_of_cons; [congruence|done].
Qed.

(** The grid after the loop of [setPattern]. *)
Lemma setPattern_grid rows g :
  wf_grid g ->
  let g' := foldl (Sequencer.setPattern_row rows) g (seqZ 0 Sequencer.numRows) in
  wf_grid g' ∧
  forall row, 0 <= row < Sequencer.numRows ->
              js_index g' row = pattern_row rows g row.
Proof.
  intros Hwf g'.
  destruct (setPattern_loop rows (seqZ 0 Sequencer.numRows) g) as [Hlen Hidx].
  { apply Forall_seqZ. destruct Hwf as [-> _]. lia. }
  fold g' in Hlen, Hidx.
  assert (forall row, 0 <= row < Sequencer.numRows ->
                      js_index g' row = pattern_row rows g row) as Hrows.
  { intros row Hrow. rewrite Hidx by lia. rewrite decide_True; [done|].
    apply elem_of_seqZ. lia. }
  split; [|done]. pose proof Hwf as [Hg Hall].
  split; [by rewrite Hlen|].
  apply Forall_lookup. intros i r Hr. simpl.
  pose proof (lookup_lt_Some _ _ _ Hr) as Hi.
  assert (js_index g' (Z.of_nat i) = Some r) as Hjs.
  { apply js_index_Some. split; [lia|]. by rewrite Nat2Z.id. }
  rewrite Hrows in Hjs by lia. unfold pattern_row in Hjs.
  assert (js_index g (Z.of_nat i) = Some r ->
          Z.of_nat (length r) = Sequencer.numSteps) as Hold.
  { intros [_ Hr']%js_index_Some. rewrite Forall_lookup in Hall.
    exact (Hall _ _ Hr'). }
  destruct (js_index rows (Z.of_nat i)) as [[|cells]|]; [by apply Hold| |by apply Hold].
  case_decide; [|by apply Hold]. by injection Hjs as <-.
Qed.

Lemma setPattern_spec rows s :
  wf_grid (Sequencer.grid s) -> Z.of_nat (length rows) = Sequencer.numRows ->
  exists g cache,
    Sequencer.setPattern (ArrayOf rows) s =
      Ok (Sequencer.set_activeStepsCache cache (Sequencer.set_grid g s)) ∧
    Inv (Sequencer.set_activeStepsCache cache (Sequencer.set_grid g s)) ∧
    rebuilt g cache ∧
    forall row, 0 <= row < Sequencer.numRows ->
                js_index g row = pattern_row rows (Sequencer.grid s) row.
Proof.
  intros Hwf Hlen.
  destruct (setPattern_grid rows (Sequencer.grid s) Hwf) as [Hwf' Hrows].
  set (g := foldl _ _ _) in *.
  destruct (updateActiveStepsCache_wf (Sequencer.set_grid g s) Hwf')
    as (cache & Hu & Hreb).
  exists g, cache. unfold Sequencer.setPattern.
  rewrite decide_True by done. fold g. rewrite Hu.
  split; [done|]. split; [|done].
  by apply (rebuilt_Inv (Sequencer.set_grid g s)).
Qed.

Lemma setPattern_rejected pattern s :
  match pattern with
  | NotArray => True
  | ArrayOf rows => Z.of_nat (length rows) ≠ Sequencer.numRows
  end ->
  Sequencer.setPattern pattern s = Ok s.
Proof.
  destruct pattern as [|rows]; [done|]. intros Hlen.
  unfold Sequencer.setPattern. by rewrite decide_False.
Qed.

Lemma clearGrid_Inv s : Inv (Sequencer.clearGrid s).
Proof.
  split; [apply wf_empty_grid|]. split.
  - intros step row. simpl. rewrite cell_empty_grid.
    unfold entry. rewrite lookup_empty. simpl.
    split; [by intros ?%elem_of_nil|done].
  - intros step l Hl. simpl in Hl. by rewrite lookup_empty in Hl.
Qed.

Lemma Inv_new e : Inv (Sequencer.new e).
Proof. apply (clearGrid_Inv (Sequencer.new e)). Qed.

(** ** The invariant along a run *)

Lemma Inv_ext s s' :
  Sequencer.grid s' = Sequencer.grid s ->
  Sequencer.activeStepsCache s' = Sequencer.activeStepsCache s ->
  Inv s -> Inv s'.
Proof.
  unfold Inv, index_consistent. intros -> ->. done.
Qed.

Lemma onStep_grid tm s h :
  Sequencer.grid (Sequencer.onStep tm s h).1 = Sequencer.grid s ∧
  Sequencer.activeStepsCache (Sequencer.onStep tm s h).1 =
    Sequencer.activeStepsCache s.
Proof. done. Qed.

Lemma start_grid s h :
  Sequencer.grid (Sequencer.start s h).1 = Sequencer.grid s ∧
  Sequencer.activeStepsCache (Sequencer.start s h).1 =
    Sequencer.activeStepsCache s.
Proof.
  unfold Sequencer.start. by destruct (AudioEngine.start _ _).
Qed.

Lemma stop_grid s h :
  Sequencer.grid (Sequencer.stop s h).1 = Sequencer.grid s ∧
  Sequencer.activeStepsCache (Sequencer.stop s h).1 =
    Sequencer.activeStepsCache s.
Proof.
  unfold Sequencer.stop. by destruct (AudioEngine.stop _ _).
Qed.

Lemma setTempo_grid bpm s h :
  Sequencer.grid (Sequencer.setTempo bpm s h).1 = Sequencer.grid s ∧
  Sequencer.activeStepsCache (Sequencer.setTempo bpm s h).1 =
    Sequencer.activeStepsCache s.
Proof.
  unfold Sequencer.setTempo. by destruct (AudioEngine.setTempo _ _ _).
Qed.

Lemma exec_Inv c s h :
  Inv s -> exists s' h', exec c (s, h) = Ok (s', h') ∧ Inv s'.
Proof.
  intros HI. destruct c as [loaded| |tm|row step now|row step v|row step|
                            |pattern| | |bpm]; unfold exec.
  - destruct (AudioEngine.init loaded _ h) as [[b e] h'] eqn:He.
    eexists _, _. split; [done|]. by apply (Inv_ext s).
  - unfold Sequencer.init.
    destruct (updateActiveStepsCache_wf (Sequencer.set_currentStep (-1) s))
      as (cache & -> & Hreb); [apply HI|].
    eexists _, _. split; [done|].
    apply (rebuilt_Inv (Sequencer.set_currentStep (-1) s)); [apply HI|done].
  - destruct (Sequencer.onStep tm s h) as [s' h'] eqn:Ho.
    exists s', h'. split; [done|].
    destruct (onStep_grid tm s h) as [Hg Hc]. rewrite Ho in Hg, Hc.
    by apply (Inv_ext s).
  - destruct (Sequencer.in_bounds row step) eqn:Hb.
    + destruct (toggleStep_spec row step now s h HI Hb)
        as (g & cache & -> & _ & HI' & _).
      eexists _, _. split; [done|]. done.
    + rewrite toggleStep_out by done. by exists s, h.
  - destruct (Sequencer.in_bounds row step) eqn:Hb.
    + destruct (setStep_spec row step v s HI Hb) as (g & cache & -> & HI' & _).
      by eexists _, _.
    + rewrite setStep_out by done. by exists s, h.
  - exists s, h. split; [|done]. unfold Sequencer.getStep.
    destruct (Sequencer.in_bounds row step) eqn:Hb; [|done].
    apply in_bounds_spec in Hb as [Hrow _].
    rewrite read_cell_wf; [done|apply HI|done].
  - eexists _, _. split; [done|]. apply clearGrid_Inv.
  - destruct pattern as [|rows].
    + by exists s, h.
    + destruct (decide (Z.of_nat (length rows) = Sequencer.numRows)) as [Hl|Hl].
      * destruct (setPattern_spec rows s) as (g & cache & -> & HI' & _);
          [apply HI|done|].
        by eexists _, _.
      * rewrite setPattern_rejected by done. by exists s, h.
  - destruct (Sequencer.start s h) as [s' h'] eqn:Ho.
    exists s', h'. split; [done|].
    destruct (start_grid s h) as [Hg Hc]. rewrite Ho in Hg, Hc.
    by apply (Inv_ext s).
  - destruct (Sequencer.stop s h) as [s' h'] eqn:Ho.
    exists s', h'. split; [done|].
    destruct (stop_grid s h) as [Hg Hc]. rewrite Ho in Hg, Hc.
    by apply (Inv_ext s).
  - destruct (Sequencer.setTempo bpm s h) as [s' h'] eqn:Ho.
    exists s', h'. split; [done|].
    destruct (setTempo_grid bpm s h) as [Hg Hc]. rewrite Ho in Hg, Hc.
    by apply (Inv_ext s).
Qed.

Lemma run_Inv cs s h :
  Inv s -> exists s' h', run cs (s, h) = Ok (s', h') ∧ Inv s'.
Proof.
  revert s h. induction cs as [|c cs IH]; intros s h HI.
  - by exists s, h.
  - destruct (exec_Inv c s h HI) as (s1 & h1 & He & HI1).
    destruct (IH s1 h1 HI1) as (s' & h' & Hr & HI').
    exists s', h'. split; [|done].
    unfold run. rewrite foldM_cons, He, bind_Ok. exact Hr.
Qed.

Lemma run_after cs : run cs initial = Ok (after cs) ∧ Inv (after cs).1.
Proof.
  destruct (run_Inv cs (Sequencer.new AudioEngine.new) new_Host (Inv_new _))
    as (s & h & Hr & HI).
  unfold after. fold initial in Hr. by rewrite Hr.
Qed.

Lemma run_app cs1 cs2 st :
  run (cs1 ++ cs2) st = (run cs1 st ≫= run cs2).
Proof.
  revert st. induction cs1 as [|c cs1 IH]; intros st; [done|].
  unfold run in *. simpl. destruct (exec c st) as [st1|e]; [|done].
  apply IH.
Qed.

(** C1: from a freshly constructed sequencer, every finite sequence of
    calls (toggleStep, setStep, clearGrid and setPattern among them, and
    every other public method as well) runs without exception and ends in a
    state where, for every step and row, the index entry of the step
    contains the row if and only if [grid[row][step]] is true. A step
    without active rows has nothing in its entry. *)
Theorem index_consistent_after_any_calls (cs : list call) :
  exists s h,
    run cs initial = Ok (s, h) ∧
    (forall step row,
        row ∈ entry (Sequencer.activeStepsCache s) step <->
        cell (Sequencer.grid s) row step = true) ∧
    (forall step,
        (forall row, cell (Sequencer.grid s) row step = false) ->
        entry (Sequencer.activeStepsCache s) step = []).
Proof.
  destruct (run_Inv cs (Sequencer.new AudioEngine.new) new_Host (Inv_new _))
    as (s & h & Hr & Hwf & Hic & Ht).
  exists s, h. split; [done|]. split; [done|].
  intros step Hnone. apply elem_of_nil_inv. intros row Hin.
  apply Hic in Hin. by rewrite Hnone in Hin.
Qed.

(** ** What the calls emit *)

Lemma emitted_app h h' evs : trace h' = trace h ++ evs -> emitted h h' = evs.
Proof. intros Ht. unfold emitted. by rewrite Ht, drop_app_length. Qed.

Lemma scheduleNote_trace i tm e h :
  trace (AudioEngine.scheduleNote i tm e h) = trace h ++ note_events e tm i.
Proof.
  unfold AudioEngine.scheduleNote, note_events.
  destruct (AudioEngine.initialized e); simpl; [|done].
  destruct (decide (i ∈ AudioEngine.players e)) as [Hin|Hin].
  - rewrite bool_decide_eq_true_2 by done. simpl. by rewrite <- app_assoc.
  - by rewrite bool_decide_eq_false_2 by done.
Qed.

Lemma scheduleNote_loop_trace tm e rows h :
  trace (foldl (fun h row => AudioEngine.scheduleNote row tm e h) h rows) =
  trace h ++ (rows ≫= note_events e tm).
Proof.
  revert h. induction rows as [|row rows IH]; intros h.
  - simpl. by rewrite app_nil_r.
  - rewrite bind_cons. simpl. rewrite IH, scheduleNote_trace.
    by rewrite <- app_assoc.
Qed.

Lemma onStep_trace tm s h :
  trace (Sequencer.onStep tm s h).2 = trace h ++ onStep_events tm s.
Proof.
  unfold Sequencer.onStep, onStep_events, entry. simpl.
  destruct (Sequencer.activeStepsCache s !! _) as [rows|]; simpl.
  - rewrite scheduleNote_loop_trace. by rewrite <- app_assoc.
  - done.
Qed.

Lemma onStep_currentStep tm s h :
  Sequencer.currentStep (Sequencer.onStep tm s h).1 =
  (Sequencer.currentStep s + 1) `rem` Sequencer.numSteps.
Proof. done. Qed.

Lemma step_events_app l1 l2 :
  step_events (l1 ++ l2) = step_events l1 ++ step_events l2.
Proof. unfold step_events. apply omap_app. Qed.

Lemma scheduled_rows_app l1 l2 :
  scheduled_rows (l1 ++ l2) = scheduled_rows l1 ++ scheduled_rows l2.
Proof. unfold scheduled_rows. apply omap_app. Qed.

Lemma step_events_notes e tm rows :
  step_events (rows ≫= note_events e tm) = [].
Proof.
  induction rows as [|row rows IH]; [done|].
  rewrite bind_cons, step_events_app, IH, app_nil_r.
  unfold note_events. by destruct (_ && _).
Qed.

Lemma scheduled_rows_notes e tm rows :
  scheduled_rows (rows ≫= note_events e tm) = rows.
Proof.
  induction rows as [|row rows IH]; [done|].
  rewrite bind_cons, scheduled_rows_app, IH.
  unfold note_events. by destruct (_ && _).
Qed.

Lemma step_events_onStep tm s :
  step_events (onStep_events tm s) =
  [(Sequencer.currentStep s + 1) `rem` Sequencer.numSteps].
Proof.
  unfold onStep_events. by rewrite step_events_app, step_events_notes.
Qed.

Lemma scheduled_rows_onStep tm s :
  scheduled_rows (onStep_events tm s) =
  entry (Sequencer.activeStepsCache s)
        ((Sequencer.currentStep s + 1) `rem` Sequencer.numSteps).
Proof.
  unfold onStep_events.
  by rewrite scheduled_rows_app, scheduled_rows_notes, app_nil_r.
Qed.

Lemma immediate_trace row step now v s h :
  trace (immediate row step now v s h) =
  trace h ++
  (if Sequencer.isPlaying s && (Sequencer.currentStep s =? step) && v
   then note_events (Sequencer.audioEngine s) now row else []).
Proof.
  unfold immediate. destruct (_ && _ && _).
  - apply scheduleNote_trace.
  - by rewrite app_nil_r.
Qed.

Lemma exec_steps c s h s' h' :
  Inv s -> exec c (s, h) = Ok (s', h') ->
  Sequencer.currentStep s' = currentStep_after c s ∧
  exists evs, trace h' = trace h ++ evs ∧ step_events evs = step_events_of c s.
Proof.
  intros HI. destruct c as [loaded| |tm|row step now|row step v|row step|
                            |pattern| | |bpm]; unfold exec.
  - destruct loaded; simpl; intros [= <- <-]; (split; [done|]).
    + exists [ConsoleLog "Audio context started";
              ConsoleLog "All samples loaded";
              ConsoleLog "Audio engine initialized"].
      split; [|done]. simpl. by rewrite <- !app_assoc.
    + by eexists.
  - unfold Sequencer.init.
    destruct (updateActiveStepsCache_wf (Sequencer.set_currentStep (-1) s))
      as (cache & -> & _); [apply HI|].
    rewrite bind_Ok. intros [= <- <-]. split; [done|]. by eexists.
  - destruct (Sequencer.onStep tm s h) as [s1 h1] eqn:Ho. intros [= <- <-].
    pose proof (onStep_trace tm s h) as Ht.
    pose proof (onStep_currentStep tm s h) as Hc. rewrite Ho in Ht, Hc.
    split; [done|]. eexists. split; [exact Ht|]. apply step_events_onStep.
  - destruct (Sequencer.in_bounds row step) eqn:Hb.
    + destruct (toggleStep_spec row step now s h HI Hb)
        as (g & cache & -> & _).
      rewrite bind_Ok. intros [= <- <-]. split; [done|].
      eexists. split; [apply immediate_trace|].
      destruct (_ && _ && _); [|done].
      unfold note_events. by destruct (_ && _).
    + rewrite toggleStep_out, bind_Ok by done. intros [= <- <-].
      split; [done|]. exists []. by rewrite app_nil_r.
  - destruct (Sequencer.in_bounds row step) eqn:Hb.
    + destruct (setStep_spec row step v s HI Hb) as (g & cache & -> & _).
      rewrite bind_Ok. intros [= <- <-]. split; [done|].
      exists []. by rewrite app_nil_r.
    + rewrite setStep_out, bind_Ok by done. intros [= <- <-].
      split; [done|]. exists []. by rewrite app_nil_r.
  - destruct (Sequencer.getStep row step s); [|done].
    rewrite bind_Ok. intros [= <- <-].
    split; [done|]. exists []. by rewrite app_nil_r.
  - intros [= <- <-]. split; [done|]. exists []. by rewrite app_nil_r.
  - destruct pattern as [|rows].
    + simpl. intros [= <- <-]. split; [done|]. exists []. by rewrite app_nil_r.
    + destruct (decide (Z.of_nat (length rows) = Sequencer.numRows)) as [Hl|Hl].
      * destruct (setPattern_spec rows s) as (g & cache & -> & _);
          [apply HI|done|].
        rewrite bind_Ok. intros [= <- <-]. split; [done|].
        exists []. by rewrite app_nil_r.
      * rewrite setPattern_rejected, bind_Ok by done. intros [= <- <-].
        split; [done|]. exists []. by rewrite app_nil_r.
  - unfold Sequencer.start, AudioEngine.start.
    destruct (AudioEngine.initialized _); simpl; intros [= <- <-];
      (split; [done|]).
    + by eexists.
    + exists []. by rewrite app_nil_r.
  - unfold Sequencer.stop, AudioEngine.stop.
    destruct (AudioEngine.initialized _); simpl; intros [= <- <-];
      (split; [done|]).
    + exists [ConsoleLog "Audio playback stopped"; StepEvent (-1)].
      split; [|done]. simpl.
      by rewrite <- app_assoc.
    + by eexists.
  - unfold Sequencer.setTempo, AudioEngine.setTempo.
    destruct (AudioEngine.initialized _); simpl; intros [= <- <-];
      (split; [done|]).
    + by eexists.
    + exists []. by rewrite app_nil_r.
Qed.

(** ** The step counter *)

Lemma count_onStep_cons c cs :
  count_onStep (c :: cs) =
  (if is_onStep c then 1 else 0) + count_onStep cs.
Proof.
  unfold count_onStep. rewrite filter_cons.
  destruct (decide (is_onStep c = true)) as [->|Hn].
  - simpl length. lia.
  - destruct (is_onStep c); [done|lia].
Qed.

Lemma count_onStep_nonneg cs : 0 <= count_onStep cs.
Proof. unfold count_onStep. lia. Qed.

Lemma step_sequence_shift c0 n :
  0 <= n ->
  (fun i => (c0 + i) `mod` 16) <$> seqZ 0 (1 + n) =
  c0 `mod` 16 :: ((fun i => (c0 `mod` 16 + 1 + i) `mod` 16) <$> seqZ 0 n).
Proof.
  intros Hn. rewrite seqZ_cons by lia. rewrite fmap_cons, Z.add_0_r. f_equal.
  replace (Z.pred (1 + n)) with n by lia.
  change (Z.succ 0) with (1 + 0).
  rewrite <- (fmap_add_seqZ 1 0 n), <- list_fmap_compose.
  apply list_fmap_ext. intros _ i _. simpl.
  rewrite <- Z.add_assoc, Z.add_mod_idemp_l by done. done.
Qed.

Lemma run_steps cs s h :
  Inv s -> forallb (fun c => negb (resets c)) cs = true ->
  -1 <= Sequencer.currentStep s < 16 ->
  exists s' h' evs,
    run cs (s, h) = Ok (s', h') ∧ Inv s' ∧
    trace h' = trace h ++ evs ∧
    step_events evs =
      (fun i => (Sequencer.currentStep s + 1 + i) `mod` 16)
        <$> seqZ 0 (count_onStep cs) ∧
    Sequencer.currentStep s' =
      if decide (count_onStep cs = 0) then Sequencer.currentStep s
      else (Sequencer.currentStep s + count_onStep cs) `mod` 16.
Proof.
  revert s h. induction cs as [|c cs IH]; intros s h HI Hnr Hcur.
  - exists s, h, []. split; [done|]. split; [done|].
    split; [by rewrite app_nil_r|]. done.
  - simpl in Hnr. apply andb_true_iff in Hnr as [Hc Hnr].
    destruct (exec_Inv c s h HI) as (s1 & h1 & He & HI1).
    destruct (exec_steps c s h s1 h1 HI He) as (Hcur1 & evs1 & Ht1 & Hev1).
    assert (-1 <= Sequencer.currentStep s1 < 16) as Hb1.
    { rewrite Hcur1. destruct c; simpl; try lia.
      rewrite Z.rem_mod_nonneg by (unfold Sequencer.numSteps; lia).
      pose proof (Z.mod_pos_bound (Sequencer.currentStep s + 1) 16).
      unfold Sequencer.numSteps. lia. }
    destruct (IH s1 h1 HI1 Hnr Hb1) as (s' & h' & evs & Hr & HI' & Ht & Hev & Hfin).
    exists s', h', (evs1 ++ evs).
    split. { unfold run. rewrite foldM_cons, He, bind_Ok. exact Hr. }
    split; [done|].
    split. { by rewrite Ht, Ht1, app_assoc. }
    rewrite step_events_app, Hev, Hev1, Hfin, Hcur1, count_onStep_cons.
    pose proof (count_onStep_nonneg cs) as Hn.
    destruct c; simpl in Hc |- *; try done.
    rewrite Z.rem_mod_nonneg by (unfold Sequencer.numSteps; lia).
    unfold Sequencer.numSteps.
    split.
    + by rewrite step_sequence_shift.
    + rewrite (decide_False (P:=(1 + count_onStep cs = 0))) by lia.
      destruct (decide (count_onStep cs = 0)) as [->|Hne].
      * by rewrite Z.add_0_r.
      * rewrite Z.add_mod_idemp_l by done. f_equal. lia.
Qed.

(** C2: from a stopped transport ([currentStep = -1]), whatever calls other
    than [stop()] and [init()] come in between, the k-th invocation of
    [onStep] sets [currentStep] to (k-1) mod 16 and emits exactly one
    step-changed notification, carrying that index; the notifications seen
    since the start are 0, 1, 2, ... taken modulo 16, one per invocation. *)
Theorem onStep_kth_invocation (cs : list call) (tm : time)
    (s : Sequencer.t) (h : Host) :
  Inv s ->
  Sequencer.currentStep s = -1 ->
  forallb (fun c => negb (resets c)) cs = true ->
  let k := count_onStep cs + 1 in
  exists s1 h1 s2 h2,
    run cs (s, h) = Ok (s1, h1) ∧
    Sequencer.onStep tm s1 h1 = (s2, h2) ∧
    Sequencer.currentStep s2 = (k - 1) `mod` 16 ∧
    step_events (emitted h1 h2) = [(k - 1) `mod` 16] ∧
    step_events (emitted h h2) = (fun i => i `mod` 16) <$> seqZ 0 k.
Proof.
  intros HI Hcur Hnr k.
  assert (forallb (fun c => negb (resets c)) (cs ++ [OnStep tm]) = true) as Hnr'.
  { rewrite forallb_app, Hnr. done. }
  destruct (run_steps (cs ++ [OnStep tm]) s h HI Hnr')
    as (s2 & h2 & evs & Hr & _ & Ht & Hev & Hfin); [lia|].
  rewrite run_app in Hr.
  destruct (run_Inv cs s h HI) as (s1 & h1 & Hr1 & HI1).
  rewrite Hr1, bind_Ok in Hr. unfold run in Hr.
  change (Ok (Sequencer.onStep tm s1 h1) = Ok (s2, h2)) in Hr.
  apply Ok_inj in Hr.
  assert (count_onStep (cs ++ [OnStep tm]) = k) as Hk.
  { unfold k, count_onStep.
    rewrite filter_app, length_app, filter_cons_True, filter_nil by done.
    simpl length. lia. }
  rewrite Hk in Hev, Hfin.
  pose proof (count_onStep_nonneg cs) as Hn.
  exists s1, h1, s2, h2. split; [done|]. split; [done|].
  split.
  { rewrite Hfin, decide_False by lia. rewrite Hcur. f_equal. lia. }
  split.
  - rewrite (emitted_app h1 h2 (onStep_events tm s1)).
    + rewrite step_events_onStep.
      pose proof (onStep_currentStep tm s1 h1) as Hc. rewrite Hr in Hc.
      simpl in Hc. rewrite <- Hc, Hfin, decide_False by lia.
      rewrite Hcur. do 2 f_equal. lia.
    + pose proof (onStep_trace tm s1 h1) as Ht1. by rewrite Hr in Ht1.
  - rewrite (emitted_app h h2 evs) by done. rewrite Hev, Hcur.
    apply list_fmap_ext. intros _ i _. f_equal.
Qed.

Lemma onStep_kth_invocation_witness :
  exists s1 h1 s2 h2,
    run [OnStep 10; ToggleStep 2 7 11; OnStep 20] initial = Ok (s1, h1) ∧
    Sequencer.onStep 30 s1 h1 = (s2, h2) ∧
    Sequencer.currentStep s2 = (3 - 1) `mod` 16 ∧
    step_events (emitted h1 h2) = [(3 - 1) `mod` 16] ∧
    step_events (emitted new_Host h2) = (fun i => i `mod` 16) <$> seqZ 0 3.
Proof.
  apply (onStep_kth_invocation [OnStep 10; ToggleStep 2 7 11; OnStep 20] 30
           (Sequencer.new AudioEngine.new) new_Host).
  - apply Inv_new.
  - reflexivity.
  - reflexivity.
Defined.

(** ** setPattern and the dimensions of its argument *)

(** C10: a [setPattern] argument that is not an array, or whose top-level
    length is not 8, leaves the sequencer as it was: the same grid and the
    same Active-Step Index (and nothing else changes either). *)
Theorem setPattern_top_level_mismatch_unchanged
    (pattern : jspattern) (s : Sequencer.t) :
  top_level_mismatch pattern ->
  exists s',
    Sequencer.setPattern pattern s = Ok s' ∧
    Sequencer.grid s' = Sequencer.grid s ∧
    Sequencer.activeStepsCache s' = Sequencer.activeStepsCache s ∧
    s' = s.
Proof.
  intros Hm. exists s. split; [|done]. by apply setPattern_rejected.
Qed.

Lemma setPattern_top_level_mismatch_unchanged_witness :
  exists s',
    Sequencer.setPattern (ArrayOf [ArrayRow (replicate 16 true)])
      (Sequencer.new AudioEngine.new) = Ok s' ∧
    Sequencer.grid s' = Sequencer.grid (Sequencer.new AudioEngine.new) ∧
    Sequencer.activeStepsCache s' =
      Sequencer.activeStepsCache (Sequencer.new AudioEngine.new) ∧
    s' = Sequencer.new AudioEngine.new.
Proof.
  apply (setPattern_top_level_mismatch_unchanged
           (ArrayOf [ArrayRow (replicate 16 true)])
           (Sequencer.new AudioEngine.new)).
  simpl. unfold Sequencer.numRows. lia.
Defined.

(** C3, as stated, fails: a pattern of 8 rows of which one has 15 steps is
    applied in part. On a fresh sequencer its first row is copied into the
    grid, so cell (0, 0) turns true. *)
Lemma setPattern_partial_application :
  mismatched short_row_pattern ∧
  exists s',
    Sequencer.setPattern short_row_pattern (Sequencer.new AudioEngine.new)
      = Ok s' ∧
    cell (Sequencer.grid (Sequencer.new AudioEngine.new)) 0 0 = false ∧
    cell (Sequencer.grid s') 0 0 = true ∧
    Sequencer.grid s' ≠ Sequencer.grid (Sequencer.new AudioEngine.new).
Proof.
  split.
  - right. apply Exists_cons_tl, Exists_cons_hd. by vm_compute.
  - eexists. split; [by vm_compute|]. by vm_compute.
Qed.

(** C3, amended: [setPattern] rejects wholesale a pattern that is not an
    array or whose row count is not 8. A pattern of 8 rows is applied row
    by row: a row that is an array of 16 steps replaces the grid row of the
    same index, any other row leaves its grid row as it was, and the
    Active-Step Index is rebuilt from the resulting grid. *)
Theorem setPattern_row_by_row (pattern : jspattern) (s : Sequencer.t) :
  wf_grid (Sequencer.grid s) ->
  exists s',
    Sequencer.setPattern pattern s = Ok s' ∧
    (top_level_mismatch pattern -> s' = s) ∧
    (forall rows,
        pattern = ArrayOf rows ->
        Z.of_nat (length rows) = Sequencer.numRows ->
        (forall row, 0 <= row < Sequencer.numRows ->
           js_index (Sequencer.grid s') row =
           match js_index rows row with
           | Some (ArrayRow cells) =>
               if decide (Z.of_nat (length cells) = Sequencer.numSteps)
               then Some cells
               else js_index (Sequencer.grid s) row
           | _ => js_index (Sequencer.grid s) row
           end) ∧
        index_consistent s').
Proof.
  intros Hwf. destruct pattern as [|rows].
  - exists s. split; [done|]. split; [done|]. by intros rows [=].
  - destruct (decide (Z.of_nat (length rows) = Sequencer.numRows)) as [Hl|Hl].
    + destruct (setPattern_spec rows s Hwf Hl) as (g & cache & Hs & HI & _ & Hrows).
      eexists. split; [exact Hs|]. split; [by intros ?|].
      intros rows' [= <-] _. split; [exact Hrows|apply HI].
    + exists s. split; [by apply setPattern_rejected|]. split; [done|].
      by intros rows' [= <-] ?.
Qed.

Lemma setPattern_row_by_row_witness :
  exists s',
    Sequencer.setPattern short_row_pattern (Sequencer.new AudioEngine.new)
      = Ok s' ∧
    (top_level_mismatch short_row_pattern -> s' = Sequencer.new AudioEngine.new) ∧
    (forall rows,
        short_row_pattern = ArrayOf rows ->
        Z.of_nat (length rows) = Sequencer.numRows ->
        (forall row, 0 <= row < Sequencer.numRows ->
           js_index (Sequencer.grid s') row =
           match js_index rows row with
           | Some (ArrayRow cells) =>
               if decide (Z.of_nat (length cells) = Sequencer.numSteps)
               then Some cells
               else js_index (Sequencer.grid (Sequencer.new AudioEngine.new)) row
           | _ => js_index (Sequencer.grid (Sequencer.new AudioEngine.new)) row
           end) ∧
        index_consistent s').
Proof.
  apply (setPattern_row_by_row short_row_pattern (Sequencer.new AudioEngine.new)).
  apply (bool_decide_unpack _). vm_compute. reflexivity.
Defined.

(** ** Indices out of bounds *)

(** C8: with a row outside 0..7 or a step outside 0..15, [toggleStep],
    [setStep] and [getStep] return normally without touching the sequencer
    (grid and Active-Step Index included) or the host, and [toggleStep] and
    [getStep] return [false]. *)
Theorem out_of_bounds_is_noop
    (row step : Z) (now : time) (v : bool) (s : Sequencer.t) (h : Host) :
  ¬ (0 <= row <= 7 ∧ 0 <= step <= 15) ->
  Sequencer.toggleStep row step now s h = Ok (false, s, h) ∧
  Sequencer.setStep row step v s = Ok s ∧
  Sequencer.getStep row step s = Ok false.
Proof.
  intros Hout.
  assert (Sequencer.in_bounds row step = false) as Hb.
  { apply in_bounds_false. unfold Sequencer.numRows, Sequencer.numSteps. lia. }
  split; [by apply toggleStep_out|].
  split; [by apply setStep_out|by apply getStep_out].
Qed.

Lemma out_of_bounds_is_noop_witness :
  Sequencer.toggleStep 8 (-1) 0 (Sequencer.new AudioEngine.new) new_Host
    = Ok (false, Sequencer.new AudioEngine.new, new_Host) ∧
  Sequencer.setStep 8 (-1) true (Sequencer.new AudioEngine.new)
    = Ok (Sequencer.new AudioEngine.new) ∧
  Sequencer.getStep 8 (-1) (Sequencer.new AudioEngine.new) = Ok false.
Proof.
  apply (out_of_bounds_is_noop 8 (-1) 0 true (Sequencer.new AudioEngine.new)
           new_Host).
  lia.
Defined.

(** ** Toggling twice *)

Lemma entries_tidy_eq (c1 c2 : gmap Z (list Z)) :
  entries_tidy c1 -> entries_tidy c2 ->
  (forall step, entry c1 step = entry c2 step) -> c1 = c2.
Proof.
  intros H1 H2 He. apply map_eq. intros step.
  specialize (He step). unfold entry in He.
  destruct (c1 !! step) as [l1|] eqn:E1, (c2 !! step) as [l2|] eqn:E2;
    simpl in He.
  - by rewrite He.
  - destruct (H1 _ _ E1) as [Hne _]. by subst l1.
  - destruct (H2 _ _ E2) as [Hne _]. by subst l2.
  - done.
Qed.

Lemma filter_ne_id (row : Z) (e : list Z) :
  row ∉ e -> filter (fun r => r ≠ row) e = e.
Proof.
  induction e as [|x e IH]; [done|]. intros Hnin.
  apply not_elem_of_cons in Hnin as [Hx Hnin].
  rewrite filter_cons_True by done. by rewrite IH.
Qed.

Lemma patch_entry_twice (c : bool) (row : Z) (e : list Z) :
  (row ∈ e <-> c = true) ->
  patch_entry c row (patch_entry (negb c) row e) =
  if c then filter (fun r => r ≠ row) e ++ [row] else e.
Proof.
  intros Hin. destruct c; simpl.
  - rewrite bool_decide_eq_false_2; [done|].
    intros [Hne _]%list_elem_of_filter. done.
  - assert (row ∉ e) as Hnin by (intros ?%Hin; done).
    rewrite bool_decide_eq_false_2 by done.
    rewrite filter_app, filter_ne_id by done.
    rewrite filter_cons_False, filter_nil by (intros ?; done).
    by rewrite app_nil_r.
Qed.

Lemma write_cell_back g row step v g1 :
  wf_grid g -> Sequencer.in_bounds row step = true ->
  Sequencer.write_cell g row step v = Ok g1 ->
  Sequencer.write_cell g1 row step (cell g row step) = Ok g.
Proof.
  intros Hwf [Hrow Hstep]%in_bounds_spec.
  destruct (wf_grid_row g row Hwf Hrow) as (r & Hr & Hlen).
  unfold Sequencer.write_cell, cell. rewrite Hr. intros [= <-].
  pose proof Hr as [_ Hr']%js_index_Some.
  pose proof (lookup_lt_Some _ _ _ Hr') as Hlt.
  rewrite js_index_insert, decide_True by (done || lia).
  destruct (js_index_lt r step) as [b Hb]; [lia|]. rewrite Hb. simpl.
  apply js_index_Some in Hb as [_ Hb]. f_equal.
  rewrite !list_insert_insert_eq.
  rewrite (list_insert_id r (Z.to_nat step) b) by done.
  by apply list_insert_id.
Qed.

(** C9, as stated, fails for the Active-Step Index: with rows 0 and 1
    active at step 0 (entry [0; 1]), toggling (0, 0) off and on again leaves
    the entry [1; 0]. The grid is back, the cache is not the one it was. *)
Lemma double_toggle_moves_row_to_end :
  let st := after [SetStep 0 0 true; SetStep 1 0 true] in
  Sequencer.in_bounds 0 0 = true ∧
  exists s1 h1 s2 h2,
    Sequencer.toggleStep 0 0 0 st.1 st.2 = Ok (false, s1, h1) ∧
    Sequencer.toggleStep 0 0 0 s1 h1 = Ok (true, s2, h2) ∧
    Sequencer.grid s2 = Sequencer.grid st.1 ∧
    Sequencer.activeStepsCache st.1 !! 0 = Some [0; 1] ∧
    Sequencer.activeStepsCache s2 !! 0 = Some [1; 0] ∧
    Sequencer.activeStepsCache s2 ≠ Sequencer.activeStepsCache st.1.
Proof.
  intros st. split; [done|]. do 4 eexists.
  split; [by vm_compute|]. split; [by vm_compute|].
  split; [by vm_compute|].
  assert (forall c1 c2 : gmap Z (list Z),
             c1 !! 0 = Some [0; 1] -> c2 !! 0 = Some [1; 0] -> c2 ≠ c1) as Hne.
  { intros c1 c2 H1 H2 ->. rewrite H1 in H2. discriminate. }
  split; [by vm_compute|]. split; [by vm_compute|].
  apply Hne; by vm_compute.
Qed.

(** C9, amended: for an in-range (row, step), two calls of [toggleStep]
    return the negation of the original cell value and then the original
    value, and bring the grid back to what it was. The Active-Step Index
    reflects the grid after each call and ends with the same rows at every
    step; it is the very same index when the cell was inactive at first,
    and when the cell was active its row has moved to the end of the entry
    of the step. *)
Theorem toggleStep_twice
    (row step : Z) (now1 now2 : time) (s : Sequencer.t) (h : Host) :
  Inv s ->
  Sequencer.in_bounds row step = true ->
  let c := cell (Sequencer.grid s) row step in
  let e := entry (Sequencer.activeStepsCache s) step in
  exists s1 h1 s2 h2,
    Sequencer.toggleStep row step now1 s h = Ok (negb c, s1, h1) ∧
    Sequencer.toggleStep row step now2 s1 h1 = Ok (c, s2, h2) ∧
    Sequencer.grid s2 = Sequencer.grid s ∧
    index_consistent s1 ∧ index_consistent s2 ∧
    (forall step' r,
        r ∈ entry (Sequencer.activeStepsCache s2) step' <->
        r ∈ entry (Sequencer.activeStepsCache s) step') ∧
    (forall step', step' ≠ step ->
        entry (Sequencer.activeStepsCache s2) step' =
        entry (Sequencer.activeStepsCache s) step') ∧
    entry (Sequencer.activeStepsCache s2) step =
      (if c then filter (fun r => r ≠ row) e ++ [row] else e) ∧
    (c = false ->
     Sequencer.activeStepsCache s2 = Sequencer.activeStepsCache s).
Proof.
  intros HI Hb c e.
  destruct (toggleStep_spec row step now1 s h HI Hb)
    as (g1 & cache1 & Ht1 & Hw1 & HI1 & Hcell1 & Hentry1).
  set (s1 := Sequencer.set_activeStepsCache cache1 (Sequencer.set_grid g1 s)) in *.
  set (h1 := immediate row step now1 (negb (cell (Sequencer.grid s) row step))
               s h) in *.
  destruct (toggleStep_spec row step now2 s1 h1 HI1 Hb)
    as (g2 & cache2 & Ht2 & Hw2 & HI2 & Hcell2 & Hentry2).
  assert (cell (Sequencer.grid s1) row step = negb c) as Hc1.
  { simpl. rewrite Hcell1. by rewrite decide_True. }
  rewrite Hc1, negb_involutive in Ht2, Hw2, Hentry2.
  simpl in Hw2, Hentry2.
  assert (g2 = Sequencer.grid s) as ->.
  { pose proof (write_cell_back _ row step (negb c) g1 (proj1 HI) Hb Hw1) as Hw.
    fold c in Hw. rewrite Hw in Hw2. by injection Hw2. }
  set (s2 := Sequencer.set_activeStepsCache cache2
               (Sequencer.set_grid (Sequencer.grid s) s1)) in *.
  assert (forall step',
             entry cache2 step' =
             if decide (step' = step)
             then (if c then filter (fun r => r ≠ row) e ++ [row] else e)
             else entry (Sequencer.activeStepsCache s) step') as Hentry.
  { intros step'. rewrite Hentry2, !Hentry1.
    rewrite (decide_True (P:=step = step)) by done.
    destruct (decide (step' = step)) as [->|Hne]; [|done].
    apply patch_entry_twice. apply (proj1 (proj2 HI)). }
  exists s1, h1, s2, (immediate row step now2 c s1 h1).
  split; [exact Ht1|]. split; [exact Ht2|].
  split; [done|]. split; [apply HI1|]. split; [apply HI2|].
  split.
  { intros step' r. destruct HI as (_ & Hic & _), HI2 as (_ & Hic2 & _).
    rewrite (Hic2 step' r), (Hic step' r). done. }
  split.
  { intros step' Hne. simpl. rewrite Hentry. by rewrite decide_False. }
  split.
  { simpl. rewrite Hentry. by rewrite decide_True. }
  intros Hc. simpl. apply entries_tidy_eq; [apply HI2|apply HI|].
  intros step'. rewrite Hentry, Hc.
  by destruct (decide (step' = step)) as [->|].
Qed.

Lemma toggleStep_twice_witness :
  let s := Sequencer.new AudioEngine.new in
  let c := cell (Sequencer.grid s) 2 7 in
  let e := entry (Sequencer.activeStepsCache s) 7 in
  exists s1 h1 s2 h2,
    Sequencer.toggleStep 2 7 3 s new_Host = Ok (negb c, s1, h1) ∧
    Sequencer.toggleStep 2 7 4 s1 h1 = Ok (c, s2, h2) ∧
    Sequencer.grid s2 = Sequencer.grid s ∧
    index_consistent s1 ∧ index_consistent s2 ∧
    (forall step' r,
        r ∈ entry (Sequencer.activeStepsCache s2) step' <->
        r ∈ entry (Sequencer.activeStepsCache s) step') ∧
    (forall step', step' ≠ 7 ->
        entry (Sequencer.activeStepsCache s2) step' =
        entry (Sequencer.activeStepsCache s) step') ∧
    entry (Sequencer.activeStepsCache s2) 7 =
      (if c then filter (fun r => r ≠ 2) e ++ [2] else e) ∧
    (c = false ->
     Sequencer.activeStepsCache s2 = Sequencer.activeStepsCache s).
Proof.
  apply (toggleStep_twice 2 7 3 4 (Sequencer.new AudioEngine.new) new_Host).
  - apply Inv_new.
  - reflexivity.
Defined.

(** ** The order of the triggers of one step *)

Lemma triggered_rows_entry tm s h :
  triggered_rows tm s h =
  entry (Sequencer.activeStepsCache s)
        ((Sequencer.currentStep s + 1) `rem` Sequencer.numSteps).
Proof.
  unfold triggered_rows.
  rewrite (emitted_app h _ (onStep_events tm s)) by apply onStep_trace.
  apply scheduled_rows_onStep.
Qed.

(** C4, as stated, fails: activate (1, 0), then (0, 0); the next [onStep]
    lands on step 0, where rows 0 and 1 are active, and triggers row 1
    before row 0. *)
Lemma onStep_triggers_in_activation_order :
  let st := after [SetStep 1 0 true; SetStep 0 0 true] in
  run [SetStep 1 0 true; SetStep 0 0 true] initial = Ok st ∧
  cell (Sequencer.grid st.1) 0 0 = true ∧
  cell (Sequencer.grid st.1) 1 0 = true ∧
  Sequencer.currentStep (Sequencer.onStep 5 st.1 st.2).1 = 0 ∧
  triggered_rows 5 st.1 st.2 = [1; 0] ∧
  ¬ ascending (triggered_rows 5 st.1 st.2).
Proof.
  intros st.
  assert (triggered_rows 5 st.1 st.2 = [1; 0]) as Hrows by (by vm_compute).
  split; [by vm_compute|].
  split; [by vm_compute|]. split; [by vm_compute|]. split; [by vm_compute|].
  split; [exact Hrows|]. rewrite Hrows.
  intros Hasc. apply StronglySorted_inv in Hasc as [_ Hlt].
  apply Forall_cons in Hlt as [Hlt _]. lia.
Qed.

(** C4, amended: [onStep] triggers every row that is active at the step
    once, in the order in which the rows stand in the Active-Step Index
    entry of the step. That order is ascending row index when the index
    comes from a full rebuild ([init], an accepted [setPattern]); a cell
    activated by [setStep] or [toggleStep] has its row appended at the end
    of the entry, so that the order then follows the activations. *)
Theorem onStep_trigger_order (tm : time) (s : Sequencer.t) (h : Host) :
  Inv s ->
  let step := (Sequencer.currentStep s + 1) `rem` Sequencer.numSteps in
  triggered_rows tm s h = entry (Sequencer.activeStepsCache s) step ∧
  NoDup (triggered_rows tm s h) ∧
  (forall row,
      row ∈ triggered_rows tm s h <-> cell (Sequencer.grid s) row step = true) ∧
  (forall s0, Sequencer.updateActiveStepsCache s0 = Ok s ->
              ascending (triggered_rows tm s h)) ∧
  (forall row now h0,
      Sequencer.in_bounds row step = true ->
      cell (Sequencer.grid s) row step = false ->
      exists s1 s2 h2,
        Sequencer.setStep row step true s = Ok s1 ∧
        triggered_rows tm s1 h = triggered_rows tm s h ++ [row] ∧
        Sequencer.toggleStep row step now s h0 = Ok (true, s2, h2) ∧
        triggered_rows tm s2 h = triggered_rows tm s h ++ [row]).
Proof.
  intros HI step. pose proof HI as (Hwf & Hic & Ht).
  rewrite triggered_rows_entry. fold step.
  split; [done|]. split; [by apply entries_tidy_entry|].
  split; [apply Hic|]. split.
  - intros s0 Hs0.
    assert (Sequencer.grid s0 = Sequencer.grid s) as Hg.
    { unfold Sequencer.updateActiveStepsCache in Hs0.
      destruct (foldM _ _ _) as [cache|]; [|done].
      rewrite bind_Ok in Hs0. by apply Ok_inj in Hs0 as <-. }
    destruct (updateActiveStepsCache_wf s0) as (cache & Hu & Hreb);
      [by rewrite Hg|].
    rewrite Hu in Hs0. apply Ok_inj in Hs0 as <-. simpl.
    rewrite (rebuilt_entry _ _ _ Hreb). apply ascending_rows_of.
  - intros row now h0 Hb Hc.
    assert (row ∉ entry (Sequencer.activeStepsCache s) step) as Hnin.
    { intros Hin%Hic. by rewrite Hc in Hin. }
    assert (patch_entry true row (entry (Sequencer.activeStepsCache s) step) =
            entry (Sequencer.activeStepsCache s) step ++ [row]) as Hp.
    { unfold patch_entry. by rewrite bool_decide_eq_false_2. }
    destruct (setStep_spec row step true s HI Hb)
      as (g1 & cache1 & Hs1 & _ & _ & He1).
    destruct (toggleStep_spec row step now s h0 HI Hb)
      as (g2 & cache2 & Hs2 & _ & _ & _ & He2).
    rewrite Hc in Hs2, He2. simpl negb in Hs2, He2.
    eexists _, _, _. split; [exact Hs1|].
    split. { rewrite triggered_rows_entry. simpl. fold step.
             rewrite He1, decide_True by done. exact Hp. }
    split; [exact Hs2|].
    rewrite triggered_rows_entry. simpl. fold step.
    rewrite He2, decide_True by done. exact Hp.
Qed.

Lemma onStep_trigger_order_witness :
  let st := after [SetStep 1 0 true; SetStep 0 0 true] in
  let s := st.1 in
  let h := st.2 in
  let step := (Sequencer.currentStep s + 1) `rem` Sequencer.numSteps in
  triggered_rows 5 s h = entry (Sequencer.activeStepsCache s) step ∧
  NoDup (triggered_rows 5 s h) ∧
  (forall row,
      row ∈ triggered_rows 5 s h <-> cell (Sequencer.grid s) row step = true) ∧
  (forall s0, Sequencer.updateActiveStepsCache s0 = Ok s ->
              ascending (triggered_rows 5 s h)) ∧
  (forall row now h0,
      Sequencer.in_bounds row step = true ->
      cell (Sequencer.grid s) row step = false ->
      exists s1 s2 h2,
        Sequencer.setStep row step true s = Ok s1 ∧
        triggered_rows 5 s1 h = triggered_rows 5 s h ++ [row] ∧
        Sequencer.toggleStep row step now s h0 = Ok (true, s2, h2) ∧
        triggered_rows 5 s2 h = triggered_rows 5 s h ++ [row]).
Proof.
  intros st s h.
  apply (onStep_trigger_order 5 s h).
  apply (run_after [SetStep 1 0 true; SetStep 0 0 true]).
Defined.

(** ** The immediate trigger of toggleStep *)

Lemma onStep_schedules_entry tm s h row :
  row ∈ entry (Sequencer.activeStepsCache s)
        ((Sequencer.currentStep s + 1) `rem` Sequencer.numSteps) ->
  ScheduleNote row tm ∈ emitted h (Sequencer.onStep tm s h).2.
Proof.
  intros Hin.
  rewrite (emitted_app h _ (onStep_events tm s)) by apply onStep_trace.
  unfold onStep_events. apply elem_of_app. left.
  apply list_elem_of_bind. exists row. split; [|done].
  unfold note_events. apply list_elem_of_here.
Qed.

(** C7: [toggleStep(row, step)] on an in-range cell returns the negated
    cell value. When the sequencer is playing, [currentStep] equals [step]
    and the cell has become active, the call invokes the trigger of the row
    at once, with the time [Tone.now()] returned (and the engine, once
    initialised, starts the player of the row at that time). In every other
    case (the cell was switched off, the step is not the current one, the
    sequencer is not playing) the call emits nothing. An activated row is in
    the index entry of the step, so that every later [onStep] that arrives
    at this step with the index as it is triggers the row with its own due
    time. *)
Theorem toggleStep_immediate_trigger
    (row step : Z) (now : time) (s : Sequencer.t) (h : Host) :
  Inv s ->
  Sequencer.in_bounds row step = true ->
  let v := negb (cell (Sequencer.grid s) row step) in
  let e := Sequencer.audioEngine s in
  exists s' h',
    Sequencer.toggleStep row step now s h = Ok (v, s', h') ∧
    emitted h h' =
      (if Sequencer.isPlaying s && (Sequencer.currentStep s =? step) && v
       then ScheduleNote row now ::
            (if AudioEngine.initialized e &&
                bool_decide (row ∈ AudioEngine.players e)
             then [PlayerStart row now] else [])
       else []) ∧
    (v = true ->
     row ∈ entry (Sequencer.activeStepsCache s') step ∧
     forall tm s2 h2,
       Sequencer.activeStepsCache s2 = Sequencer.activeStepsCache s' ->
       (Sequencer.currentStep s2 + 1) `rem` Sequencer.numSteps = step ->
       ScheduleNote row tm ∈ emitted h2 (Sequencer.onStep tm s2 h2).2).
Proof.
  intros HI Hb v e.
  destruct (toggleStep_spec row step now s h HI Hb)
    as (g & cache & Ht & _ & HI' & Hcell & Hentry).
  fold v in Ht, Hcell, Hentry.
  eexists _, _. split; [exact Ht|]. split.
  - apply emitted_app. apply immediate_trace.
  - intros Hv.
    assert (row ∈ entry cache step) as Hin.
    { rewrite Hentry, decide_True by done. apply elem_of_patch_entry.
      by rewrite decide_True. }
    split; [exact Hin|].
    intros tm s2 h2 Hcache Hstep. apply onStep_schedules_entry.
    rewrite Hcache, Hstep. exact Hin.
Qed.

Lemma toggleStep_immediate_trigger_witness :
  let st := after [EngineInit true; Start; OnStep 1; OnStep 2; OnStep 3;
                   OnStep 4; OnStep 5; OnStep 6; OnStep 7; OnStep 8] in
  let s := st.1 in
  let h := st.2 in
  let v := negb (cell (Sequencer.grid s) 2 7) in
  let e := Sequencer.audioEngine s in
  exists s' h',
    Sequencer.toggleStep 2 7 100 s h = Ok (v, s', h') ∧
    emitted h h' =
      (if Sequencer.isPlaying s && (Sequencer.currentStep s =? 7) && v
       then ScheduleNote 2 100 ::
            (if AudioEngine.initialized e &&
                bool_decide (2 ∈ AudioEngine.players e)
             then [PlayerStart 2 100] else [])
       else []) ∧
    (v = true ->
     2 ∈ entry (Sequencer.activeStepsCache s') 7 ∧
     forall tm s2 h2,
       Sequencer.activeStepsCache s2 = Sequencer.activeStepsCache s' ->
       (Sequencer.currentStep s2 + 1) `rem` Sequencer.numSteps = 7 ->
       ScheduleNote 2 tm ∈ emitted h2 (Sequencer.onStep tm s2 h2).2).
Proof.
  intros st s h.
  apply (toggleStep_immediate_trigger 2 7 100 s h).
  - apply (run_after [EngineInit true; Start; OnStep 1; OnStep 2; OnStep 3;
                      OnStep 4; OnStep 5; OnStep 6; OnStep 7; OnStep 8]).
  - reflexivity.
Defined.

(** In the state of the witness the sequencer is playing at step 7, so the
    toggle of (2, 7) emits the trigger of row 2 and the start of its
    player. *)
Example toggleStep_at_current_step :
  let st := after [EngineInit true; Start; OnStep 1; OnStep 2; OnStep 3;
                   OnStep 4; OnStep 5; OnStep 6; OnStep 7; OnStep 8] in
  Sequencer.isPlaying st.1 = true ∧ Sequencer.currentStep st.1 = 7 ∧
  exists s' h',
    Sequencer.toggleStep 2 7 100 st.1 st.2 = Ok (true, s', h') ∧
    emitted st.2 h' = [ScheduleNote 2 100; PlayerStart 2 100].
Proof.
  intros st. split; [by vm_compute|]. split; [by vm_compute|].
  eexists _, _. split; by vm_compute.
Qed.

(** ** start() before the audio engine is ready *)

(** C5, as stated, fails: on a freshly constructed sequencer, whose engine
    is not initialised, [start()] returns normally, reports nothing, and
    sets [isPlaying] of the sequencer to [true]. *)
Lemma start_when_not_ready_marks_playing :
  let s := Sequencer.new AudioEngine.new in
  AudioEngine.initialized (Sequencer.audioEngine s) = false ∧
  Sequencer.isPlaying s = false ∧
  Sequencer.isPlaying (Sequencer.start s new_Host).1 = true ∧
  emitted new_Host (Sequencer.start s new_Host).2 = [].
Proof. intros s. repeat split; by vm_compute. Qed.

(** C5, amended: [start()] called before the audio engine is initialised
    returns normally and reports nothing; the audio engine and the Tone
    transport are left as they were (the engine's [isPlaying] stays false,
    the transport is not started), and so are [currentStep] (-1 when
    stopped), the grid and the Active-Step Index. *)
Theorem start_before_init (s : Sequencer.t) (h : Host) :
  AudioEngine.initialized (Sequencer.audioEngine s) = false ->
  let s' := (Sequencer.start s h).1 in
  let h' := (Sequencer.start s h).2 in
  h' = h ∧ emitted h h' = [] ∧
  transport_started h' = transport_started h ∧
  Sequencer.audioEngine s' = Sequencer.audioEngine s ∧
  AudioEngine.isPlaying (Sequencer.audioEngine s') =
    AudioEngine.isPlaying (Sequencer.audioEngine s) ∧
  Sequencer.currentStep s' = Sequencer.currentStep s ∧
  Sequencer.grid s' = Sequencer.grid s ∧
  Sequencer.activeStepsCache s' = Sequencer.activeStepsCache s.
Proof.
  intros Hinit. unfold Sequencer.start, AudioEngine.start. rewrite Hinit.
  simpl. split; [done|]. split; [|done].
  unfold emitted. by rewrite drop_all.
Qed.

Lemma start_before_init_witness :
  let s := Sequencer.new AudioEngine.new in
  let s' := (Sequencer.start s new_Host).1 in
  let h' := (Sequencer.start s new_Host).2 in
  h' = new_Host ∧ emitted new_Host h' = [] ∧
  transport_started h' = transport_started new_Host ∧
  Sequencer.audioEngine s' = Sequencer.audioEngine s ∧
  AudioEngine.isPlaying (Sequencer.audioEngine s') =
    AudioEngine.isPlaying (Sequencer.audioEngine s) ∧
  Sequencer.currentStep s' = Sequencer.currentStep s ∧
  Sequencer.grid s' = Sequencer.grid s ∧
  Sequencer.activeStepsCache s' = Sequencer.activeStepsCache s.
Proof.
  intros s.
  apply (start_before_init (Sequencer.new AudioEngine.new) new_Host).
  reflexivity.
Defined.

(** ** setTempo *)

(** C6, as stated, fails: once the engine is initialised, [setTempo(0)] and
    [setTempo(NaN)] replace the tempo of 120 by the value passed, in the
    engine and in the transport, and log it as any other tempo. *)
Lemma setTempo_accepts_invalid_bpm :
  let st := after [EngineInit true] in
  positive_finite (Finite 0) = false ∧ positive_finite NaN = false ∧
  AudioEngine.tempo (Sequencer.audioEngine st.1) = Finite 120 ∧
  AudioEngine.tempo
    (Sequencer.audioEngine (Sequencer.setTempo (Finite 0) st.1 st.2).1)
    = Finite 0 ∧
  transport_bpm (Sequencer.setTempo (Finite 0) st.1 st.2).2 = Finite 0 ∧
  emitted st.2 (Sequencer.setTempo (Finite 0) st.1 st.2).2
    = [ConsoleTempo (Finite 0)] ∧
  AudioEngine.tempo
    (Sequencer.audioEngine (Sequencer.setTempo NaN st.1 st.2).1) = NaN ∧
  AudioEngine.tempo
    (Sequencer.audioEngine (Sequencer.setTempo (Finite 0) st.1 st.2).1)
    ≠ AudioEngine.tempo (Sequencer.audioEngine st.1).
Proof. intros st. repeat split; by vm_compute. Qed.

(** C6, amended: [setTempo] does not validate [bpm]. Once the audio engine
    is initialised, every value, a non-positive or non-finite one as well,
    becomes the tempo of the engine and of the transport, and the call
    returns normally with the usual log line. Before the initialisation the
    call is ignored: it returns normally, reports nothing, and the previous
    tempo is retained. *)
Theorem setTempo_stores_bpm_unvalidated
    (bpm : jsnum) (s : Sequencer.t) (h : Host) :
  let s' := (Sequencer.setTempo bpm s h).1 in
  let h' := (Sequencer.setTempo bpm s h).2 in
  if AudioEngine.initialized (Sequencer.audioEngine s)
  then AudioEngine.tempo (Sequencer.audioEngine s') = bpm ∧
       transport_bpm h' = bpm ∧
       emitted h h' = [ConsoleTempo bpm]
  else s' = s ∧ h' = h ∧
       AudioEngine.tempo (Sequencer.audioEngine s') =
         AudioEngine.tempo (Sequencer.audioEngine s).
Proof.
  unfold Sequencer.setTempo, AudioEngine.setTempo.
  destruct (AudioEngine.initialized _) eqn:Hinit; simpl.
  - split; [done|]. split; [done|]. apply emitted_app. done.
  - split; [by destruct s|done].
Qed.

(** * Further properties of the sequencer *)

(** ** Reading back what was written *)

Lemma cell_lookup (g : list (list bool)) i j r b :
  g !! i = Some r -> r !! j = Some b ->
  cell g (Z.of_nat i) (Z.of_nat j) = b.
Proof.
  intros Hr Hb. unfold cell.
  assert (js_index g (Z.of_nat i) = Some r) as ->.
  { apply js_index_Some. split; [lia|]. by rewrite Nat2Z.id. }
  assert (js_index r (Z.of_nat j) = Some b) as ->; [|done].
  apply js_index_Some. split; [lia|]. by rewrite Nat2Z.id.
Qed.

(** Two grids of the configured shape with the same cells are the same. *)
Lemma grid_ext g1 g2 :
  wf_grid g1 -> wf_grid g2 ->
  (forall r c, cell g1 r c = cell g2 r c) -> g1 = g2.
Proof.
  intros [Hl1 Hr1] [Hl2 Hr2] Hcell.
  apply (list_eq_same_length _ _ (Z.to_nat Sequencer.numRows)); [lia|lia|].
  intros i r1 r2 _ H1 H2.
  rewrite Forall_lookup in Hr1, Hr2.
  pose proof (Hr1 _ _ H1) as Hlen1. pose proof (Hr2 _ _ H2) as Hlen2.
  simpl in Hlen1, Hlen2.
  apply (list_eq_same_length _ _ (Z.to_nat Sequencer.numSteps)); [lia|lia|].
  intros j b1 b2 _ Hb1 Hb2.
  rewrite <- (cell_lookup g1 i j r1 b1), <- (cell_lookup g2 i j r2 b2) by done.
  apply Hcell.
Qed.

Lemma getStep_wf row step s :
  wf_grid (Sequencer.grid s) ->
  Sequencer.getStep row step s = Ok (cell (Sequencer.grid s) row step).
Proof.
  intros Hwf. unfold Sequencer.getStep.
  destruct (Sequencer.in_bounds row step) eqn:Hb.
  - apply in_bounds_spec in Hb as [Hrow _]. by apply read_cell_wf.
  - destruct (cell (Sequencer.grid s) row step) eqn:Hc; [|done].
    apply cell_true_bounds in Hc; [|done].
    apply in_bounds_false in Hb. done.
Qed.

Lemma patch_entry_same (c : bool) (row : Z) (e : list Z) :
  (row ∈ e <-> c = true) -> patch_entry c row e = e.
Proof.
  intros Hin. unfold patch_entry. destruct c.
  - rewrite bool_decide_eq_true_2; [done|]. by apply Hin.
  - apply filter_ne_id. intros ?%Hin. done.
Qed.

(** X1: after [setStep(row, step, v)] on an in-range cell, [getStep] of
    that cell returns [v] and [getStep] of every other cell returns what it
    returned before. *)
Theorem setStep_then_getStep
    (row step : Z) (v : bool) (s : Sequencer.t) :
  Inv s ->
  Sequencer.in_bounds row step = true ->
  exists s',
    Sequencer.setStep row step v s = Ok s' ∧
    Sequencer.getStep row step s' = Ok v ∧
    forall r c, ¬ (r = row ∧ c = step) ->
                Sequencer.getStep r c s' = Sequencer.getStep r c s.
Proof.
  intros HI Hb.
  destruct (setStep_spec row step v s HI Hb) as (g & cache & Hs & HI' & Hcell & _).
  eexists. split; [exact Hs|]. split.
  - rewrite getStep_wf by apply HI'. simpl.
    rewrite Hcell. by rewrite decide_True.
  - intros r c Hne.
    rewrite (getStep_wf r c s) by apply HI.
    rewrite getStep_wf by apply HI'. simpl.
    rewrite Hcell. by rewrite decide_False.
Qed.

Lemma setStep_then_getStep_witness :
  exists s',
    Sequencer.setStep 1 4 true (Sequencer.new AudioEngine.new) = Ok s' ∧
    Sequencer.getStep 1 4 s' = Ok true ∧
    forall r c, ¬ (r = 1 ∧ c = 4) ->
                Sequencer.getStep r c s' =
                Sequencer.getStep r c (Sequencer.new AudioEngine.new).
Proof.
  apply (setStep_then_getStep 1 4 true (Sequencer.new AudioEngine.new)).
  - apply Inv_new.
  - reflexivity.
Defined.

Lemma setStep_same_value row step v s :
  Inv s -> Sequencer.in_bounds row step = true ->
  cell (Sequencer.grid s) row step = v ->
  Sequencer.setStep row step v s = Ok s.
Proof.
  intros HI Hb Hv.
  destruct (setStep_spec row step v s HI Hb)
    as (g & cache & Hs & HI' & Hcell & Hentry).
  rewrite Hs. f_equal.
  assert (g = Sequencer.grid s) as ->.
  { apply grid_ext; [apply HI'|apply HI|]. intros r c. rewrite Hcell.
    destruct (decide (r = row ∧ c = step)) as [[-> ->]|]; done. }
  assert (cache = Sequencer.activeStepsCache s) as ->.
  { apply entries_tidy_eq; [apply HI'|apply HI|]. intros step'.
    rewrite Hentry. destruct (decide (step' = step)) as [->|]; [|done].
    apply patch_entry_same. rewrite <- Hv. apply HI. }
  by destruct s.
Qed.

(** X2: [setStep] with the value the cell already holds leaves the
    sequencer as it is, so that [setStep] is idempotent: the second of two
    equal calls changes nothing. *)
Theorem setStep_idempotent (row step : Z) (v : bool) (s : Sequencer.t) :
  Inv s ->
  Sequencer.in_bounds row step = true ->
  (Sequencer.getStep row step s = Ok v ->
   Sequencer.setStep row step v s = Ok s) ∧
  exists s',
    Sequencer.setStep row step v s = Ok s' ∧
    Sequencer.setStep row step v s' = Ok s'.
Proof.
  intros HI Hb. split.
  - rewrite getStep_wf by apply HI. intros [= Hv].
    by apply setStep_same_value.
  - destruct (setStep_spec row step v s HI Hb)
      as (g & cache & Hs & HI' & Hcell & _).
    eexists. split; [exact Hs|].
    apply setStep_same_value; [done|done|].
    simpl. rewrite Hcell. by rewrite decide_True.
Qed.

Lemma setStep_idempotent_witness :
  let s := (after [SetStep 0 0 true; SetStep 1 0 true]).1 in
  (Sequencer.getStep 1 0 s = Ok true ->
   Sequencer.setStep 1 0 true s = Ok s) ∧
  exists s',
    Sequencer.setStep 1 0 true s = Ok s' ∧
    Sequencer.setStep 1 0 true s' = Ok s'.
Proof.
  intros s. apply (setStep_idempotent 1 0 true s).
  - apply (run_after [SetStep 0 0 true; SetStep 1 0 true]).
  - reflexivity.
Defined.

(** X3: on an in-range cell [toggleStep] leaves the sequencer that
    [setStep] with the negation of [getStep] leaves, and returns the value
    [getStep] returns afterwards. *)
Theorem toggleStep_is_setStep_of_negation
    (row step : Z) (now : time) (s : Sequencer.t) (h : Host) :
  Inv s ->
  Sequencer.in_bounds row step = true ->
  exists old s' h',
    Sequencer.getStep row step s = Ok old ∧
    Sequencer.toggleStep row step now s h = Ok (negb old, s', h') ∧
    Sequencer.setStep row step (negb old) s = Ok s' ∧
    Sequencer.getStep row step s' = Ok (negb old).
Proof.
  intros HI Hb.
  set (old := cell (Sequencer.grid s) row step).
  destruct (write_then_patch row step (negb old) s HI Hb)
    as (g & cache & Hw & Hu & HI' & Hcell & _).
  destruct (toggleStep_spec row step now s h HI Hb)
    as (g' & cache' & Ht & Hw' & _).
  fold old in Ht, Hw'. rewrite Hw in Hw'. apply Ok_inj in Hw' as <-.
  assert (Sequencer.setStep row step (negb old) s =
          Ok (Sequencer.set_activeStepsCache cache (Sequencer.set_grid g s)))
    as Hs.
  { unfold Sequencer.setStep. by rewrite Hb, Hw, bind_Ok. }
  assert (cache' = cache) as ->.
  { unfold Sequencer.toggleStep in Ht. rewrite Hb in Ht.
    rewrite read_cell_wf, bind_Ok in Ht
      by (apply HI || (apply in_bounds_spec in Hb; tauto)).
    fold old in Ht. rewrite Hw, bind_Ok, Hu, bind_Ok in Ht.
    rewrite !read_cell_wf, !bind_Ok in Ht
      by (apply HI' || (apply in_bounds_spec in Hb; tauto)).
    apply Ok_inj in Ht. by injection Ht. }
  exists old. eexists _, _. split; [by apply getStep_wf, HI|].
  split; [exact Ht|]. split; [exact Hs|].
  rewrite getStep_wf by apply HI'. simpl. rewrite Hcell.
  by rewrite decide_True.
Qed.

Lemma toggleStep_is_setStep_of_negation_witness :
  let st := after [SetStep 0 0 true; Start; OnStep 3] in
  exists old s' h',
    Sequencer.getStep 0 0 st.1 = Ok old ∧
    Sequencer.toggleStep 0 0 9 st.1 st.2 = Ok (negb old, s', h') ∧
    Sequencer.setStep 0 0 (negb old) st.1 = Ok s' ∧
    Sequencer.getStep 0 0 s' = Ok (negb old).
Proof.
  intros st. apply (toggleStep_is_setStep_of_negation 0 0 9 st.1 st.2).
  - apply (run_after [SetStep 0 0 true; Start; OnStep 3]).
  - reflexivity.
Defined.

(** ** Clearing and stopping *)

(** X4: after [clearGrid()] every [getStep] returns [false] and an [onStep]
    triggers no instrument: it emits the step-changed notification only.
    The transport is not touched ([currentStep], [isPlaying] and the engine
    stay), so clearing while playing lets the steps go on; clearing twice
    is clearing once. *)
Theorem clearGrid_empties_pattern (s : Sequencer.t) (h : Host) (tm : time) :
  let s' := Sequencer.clearGrid s in
  (forall row step, Sequencer.getStep row step s' = Ok false) ∧
  emitted h (Sequencer.onStep tm s' h).2 =
    [StepEvent ((Sequencer.currentStep s + 1) `rem` Sequencer.numSteps)] ∧
  Sequencer.currentStep s' = Sequencer.currentStep s ∧
  Sequencer.isPlaying s' = Sequencer.isPlaying s ∧
  Sequencer.audioEngine s' = Sequencer.audioEngine s ∧
  Sequencer.clearGrid s' = s'.
Proof.
  intros s'. split.
  - intros row step. rewrite getStep_wf by apply wf_empty_grid.
    simpl. by rewrite cell_empty_grid.
  - split; [|done].
    rewrite (emitted_app h _ (onStep_events tm s')) by apply onStep_trace.
    unfold onStep_events, entry. simpl. by rewrite lookup_empty.
Qed.

(** X5: [stop()] marks the sequencer stopped and puts [currentStep] back to
    -1 whatever the state of the engine, emits exactly one step-changed
    notification, carrying -1, and triggers nothing; the pattern and its
    index are kept. With an initialised engine the transport and the engine
    are stopped as well. After a [start()] the first [onStep] is step 0
    again. *)
Theorem stop_resets_transport (s : Sequencer.t) (h : Host) :
  let s' := (Sequencer.stop s h).1 in
  let h' := (Sequencer.stop s h).2 in
  Sequencer.isSequencerPlaying s' = false ∧
  Sequencer.getCurrentStep s' = -1 ∧
  step_events (emitted h h') = [-1] ∧
  scheduled_rows (emitted h h') = [] ∧
  Sequencer.grid s' = Sequencer.grid s ∧
  Sequencer.activeStepsCache s' = Sequencer.activeStepsCache s ∧
  (AudioEngine.initialized (Sequencer.audioEngine s) = true ->
   transport_started h' = false ∧
   AudioEngine.isPlaying (Sequencer.audioEngine s') = false) ∧
  forall tm h2,
    let st := Sequencer.start s' h2 in
    Sequencer.getCurrentStep (Sequencer.onStep tm st.1 st.2).1 = 0.
Proof.
  unfold Sequencer.stop, Sequencer.start, AudioEngine.stop, AudioEngine.start.
  destruct (AudioEngine.initialized (Sequencer.audioEngine s)) eqn:Hinit; simpl.
  - rewrite (emitted_app h _ [ConsoleLog "Audio playback stopped"; StepEvent (-1)])
      by (simpl; by rewrite <- app_assoc).
    done.
  - rewrite Hinit. simpl.
    rewrite (emitted_app h _ [StepEvent (-1)]) by done.
    done.
Qed.

(** ** Loading a whole pattern *)

Lemma js_index_fmap {A B} (f : A -> B) (l : list A) i :
  js_index (f <$> l) i = f <$> js_index l i.
Proof.
  unfold js_index. destruct (decide (0 <= i)); [|done].
  apply list_lookup_fmap.
Qed.

(** X6: [setPattern] with a pattern of the configured shape (8 rows of 16
    steps) replaces the grid by the pattern, whatever the grid held:
    [getStep] then returns the cells of the pattern, and the Active-Step
    Index is consistent with them, each entry in ascending row order. *)
Theorem setPattern_then_getStep
    (pattern : list (list bool)) (s : Sequencer.t) :
  wf_grid (Sequencer.grid s) ->
  wf_grid pattern ->
  exists s',
    Sequencer.setPattern (ArrayOf (ArrayRow <$> pattern)) s = Ok s' ∧
    Sequencer.grid s' = pattern ∧
    (forall row step,
        Sequencer.getStep row step s' = Ok (cell pattern row step)) ∧
    index_consistent s' ∧
    forall step, ascending (entry (Sequencer.activeStepsCache s') step).
Proof.
  intros Hwf Hp.
  destruct (setPattern_spec (ArrayRow <$> pattern) s Hwf)
    as (g & cache & Hs & HI & Hreb & Hrows).
  { rewrite length_fmap. apply Hp. }
  assert (g = pattern) as ->.
  { apply grid_ext; [apply HI|done|]. intros r c. unfold cell.
    destruct (decide (0 <= r < Sequencer.numRows)) as [Hr|Hr].
    - rewrite Hrows by done. unfold pattern_row. rewrite js_index_fmap.
      destruct (wf_grid_row pattern r Hp Hr) as (cells & -> & Hlen).
      simpl. by rewrite decide_True.
    - destruct HI as [[Hlen _] _], Hp as [Hlen' _]. simpl in Hlen.
      by rewrite !(js_index_ge _ r) by lia. }
  eexists. split; [exact Hs|]. split; [done|]. split.
  - intros row step. by rewrite getStep_wf by apply HI.
  - split; [apply HI|]. intros step. simpl.
    rewrite (rebuilt_entry _ _ _ Hreb). apply ascending_rows_of.
Qed.

Lemma setPattern_then_getStep_witness :
  let pattern := replicate 16 true :: replicate 7 (replicate 16 false) in
  let s := (after [SetStep 3 5 true]).1 in
  exists s',
    Sequencer.setPattern (ArrayOf (ArrayRow <$> pattern)) s = Ok s' ∧
    Sequencer.grid s' = pattern ∧
    (forall row step,
        Sequencer.getStep row step s' = Ok (cell pattern row step)) ∧
    index_consistent s' ∧
    forall step, ascending (entry (Sequencer.activeStepsCache s') step).
Proof.
  intros pattern s. apply (setPattern_then_getStep pattern s).
  - apply (run_after [SetStep 3 5 true]).
  - apply (bool_decide_unpack _). vm_compute. reflexivity.
Defined.

(** ** The full rebuild against the patched index *)

Lemma rebuilt_unique g (c1 c2 : gmap Z (list Z)) :
  rebuilt g c1 -> rebuilt g c2 -> c1 = c2.
Proof. intros H1 H2. apply map_eq. intros step. by rewrite H1, H2. Qed.

(** X7: on a state that calls have led to, [updateActiveStepsCache] keeps
    the grid and only reorders the index: every entry holds the rows it
    held, now in ascending order, and the index is still consistent with
    the grid. A second rebuild changes nothing. *)
Theorem updateActiveStepsCache_sorts_entries (s : Sequencer.t) :
  Inv s ->
  exists s',
    Sequencer.updateActiveStepsCache s = Ok s' ∧
    Sequencer.grid s' = Sequencer.grid s ∧
    (forall step,
        ascending (entry (Sequencer.activeStepsCache s') step) ∧
        entry (Sequencer.activeStepsCache s') step ≡ₚ
          entry (Sequencer.activeStepsCache s) step) ∧
    index_consistent s' ∧
    Sequencer.updateActiveStepsCache s' = Ok s'.
Proof.
  intros (Hwf & Hic & Ht).
  destruct (updateActiveStepsCache_wf s Hwf) as (cache & Hu & Hreb).
  eexists. split; [exact Hu|]. split; [done|]. split; [|split].
  - intros step. simpl. rewrite (rebuilt_entry _ _ _ Hreb).
    split; [apply ascending_rows_of|].
    apply NoDup_Permutation;
      [apply NoDup_rows_of|by apply entries_tidy_entry|].
    intros row. rewrite elem_of_rows_of by done. symmetry. apply Hic.
  - by apply (rebuilt_Inv s cache).
  - destruct (updateActiveStepsCache_wf (Sequencer.set_activeStepsCache cache s))
      as (cache' & Hu' & Hreb'); [done|].
    rewrite Hu'. simpl in Hreb'.
    by rewrite (rebuilt_unique _ _ _ Hreb' Hreb).
Qed.

Lemma updateActiveStepsCache_sorts_entries_witness :
  let s := (after [SetStep 1 0 true; SetStep 0 0 true]).1 in
  exists s',
    Sequencer.updateActiveStepsCache s = Ok s' ∧
    Sequencer.grid s' = Sequencer.grid s ∧
    (forall step,
        ascending (entry (Sequencer.activeStepsCache s') step) ∧
        entry (Sequencer.activeStepsCache s') step ≡ₚ
          entry (Sequencer.activeStepsCache s) step) ∧
    index_consistent s' ∧
    Sequencer.updateActiveStepsCache s' = Ok s'.
Proof.
  intros s. apply (updateActiveStepsCache_sorts_entries s).
  apply (run_after [SetStep 1 0 true; SetStep 0 0 true]).
Defined.

(** ** Invariants of the transport along a run *)

Lemma run_invariant (P : state -> Prop) :
  (forall c s h s' h',
      Inv s -> P (s, h) -> exec c (s, h) = Ok (s', h') -> P (s', h')) ->
  forall cs s h,
    Inv s -> P (s, h) ->
    exists s' h', run cs (s, h) = Ok (s', h') ∧ Inv s' ∧ P (s', h').
Proof.
  intros Hstep cs. induction cs as [|c cs IH]; intros s h HI HP.
  - by exists s, h.
  - destruct (exec_Inv c s h HI) as (s1 & h1 & He & HI1).
    destruct (IH s1 h1 HI1 (Hstep _ _ _ _ _ HI HP He)) as (s' & h' & Hr & ?).
    exists s', h'. split; [|done].
    unfold run. rewrite foldM_cons, He, bind_Ok. exact Hr.
Qed.

Lemma scheduleNote_transport i tm e h :
  transport_started (AudioEngine.scheduleNote i tm e h) = transport_started h ∧
  transport_bpm (AudioEngine.scheduleNote i tm e h) = transport_bpm h.
Proof.
  unfold AudioEngine.scheduleNote.
  destruct (negb _); [done|]. by destruct (decide _).
Qed.

Lemma scheduleNote_loop_transport tm e rows h :
  let h' := foldl (fun h row => AudioEngine.scheduleNote row tm e h) h rows in
  transport_started h' = transport_started h ∧
  transport_bpm h' = transport_bpm h.
Proof.
  revert h. induction rows as [|row rows IH]; intros h; [done|].
  simpl. destruct (IH (AudioEngine.scheduleNote row tm e h)) as [-> ->].
  apply scheduleNote_transport.
Qed.

(** The calls that are neither [start], [stop], [setTempo] nor the
    initialisation of the engine leave the engine, [isPlaying] and the
    transport alone. *)
Lemma exec_pattern_call c s h s' h' :
  Inv s -> exec c (s, h) = Ok (s', h') ->
  match c with
  | Start | Stop | SetTempo _ | EngineInit _ => True
  | _ =>
      Sequencer.audioEngine s' = Sequencer.audioEngine s ∧
      Sequencer.isPlaying s' = Sequencer.isPlaying s ∧
      transport_started h' = transport_started h ∧
      transport_bpm h' = transport_bpm h
  end.
Proof.
  intros HI. destruct c as [loaded| |tm|row step now|row step v|row step|
                            |pattern| | |bpm]; unfold exec; try done.
  - unfold Sequencer.init.
    destruct (updateActiveStepsCache_wf (Sequencer.set_currentStep (-1) s))
      as (cache & -> & _); [apply HI|].
    rewrite bind_Ok. by intros [= <- <-].
  - intros Ho%Ok_inj. unfold Sequencer.onStep in Ho.
    injection Ho as <- <-. simpl. split; [done|]. split; [done|].
    destruct (Sequencer.activeStepsCache s !! _) as [rows|]; [|done].
    apply scheduleNote_loop_transport.
  - destruct (Sequencer.in_bounds row step) eqn:Hb.
    + destruct (toggleStep_spec row step now s h HI Hb)
        as (g & cache & -> & _).
      rewrite bind_Ok. intros [= <- <-]. split; [done|]. split; [done|].
      unfold immediate. destruct (_ && _ && _); [|done].
      apply scheduleNote_transport.
    + rewrite toggleStep_out, bind_Ok by done. by intros [= <- <-].
  - destruct (Sequencer.in_bounds row step) eqn:Hb.
    + destruct (setStep_spec row step v s HI Hb) as (g & cache & -> & _).
      rewrite bind_Ok. by intros [= <- <-].
    + rewrite setStep_out, bind_Ok by done. by intros [= <- <-].
  - destruct (Sequencer.getStep row step s); [|done].
    rewrite bind_Ok. by intros [= <- <-].
  - by intros [= <- <-].
  - destruct pattern as [|rows].
    + simpl. by intros [= <- <-].
    + destruct (decide (Z.of_nat (length rows) = Sequencer.numRows)) as [Hl|Hl].
      * destruct (setPattern_spec rows s) as (g & cache & -> & _);
          [apply HI|done|].
        rewrite bind_Ok. by intros [= <- <-].
      * rewrite setPattern_rejected, bind_Ok by done. by intros [= <- <-].
Qed.

Lemma exec_engine_consistent c s h s' h' :
  Inv s -> engine_consistent (s, h) -> exec c (s, h) = Ok (s', h') ->
  engine_consistent (s', h').
Proof.
  intros HI (Hsync & Hplay & Hinit) He.
  pose proof (exec_pattern_call c s h s' h' HI He) as Hq.
  unfold engine_consistent in *. simpl in *.
  destruct c as [loaded| |tm|row step now|row step v|row step|
                 |pattern| | |bpm];
    try (destruct Hq as (-> & -> & -> & ->); done);
    unfold exec in He.
  - destruct loaded; simpl in He; injection He as <- <-; simpl; [|done].
    split; [done|]. split; [|done].
    intros Hp. destruct (Hplay Hp) as [_ ?]. done.
  - unfold Sequencer.start, AudioEngine.start in He.
    destruct (AudioEngine.initialized _) eqn:Hi; simpl in He;
      injection He as <- <-; simpl.
    + split; [done|]. split; [done|]. intros _. by apply Hinit.
    + split; [done|]. split; [|by rewrite Hi].
      intros Hp. destruct (Hplay Hp) as [? _]. congruence.
  - unfold Sequencer.stop, AudioEngine.stop in He.
    destruct (AudioEngine.initialized _) eqn:Hi; simpl in He;
      injection He as <- <-; simpl.
    + split; [done|]. split; [done|]. intros _. by apply Hinit.
    + split; [done|]. split; [|by rewrite Hi].
      intros Hp. destruct (Hplay Hp) as [? _]. congruence.
  - unfold Sequencer.setTempo, AudioEngine.setTempo in He.
    destruct (AudioEngine.initialized _) eqn:Hi; simpl in He;
      injection He as <- <-; simpl.
    + split; [done|]. split; [|by intros _; split; [apply Hinit|]].
      intros Hp. by destruct (Hplay Hp).
    + rewrite Hi. split; [exact Hsync|]. split; [exact Hplay|by intros ?].
Qed.

Lemma run_engine_consistent cs :
  exists s h,
    run cs initial = Ok (s, h) ∧ Inv s ∧ engine_consistent (s, h).
Proof.
  apply (run_invariant engine_consistent exec_engine_consistent);
    [apply Inv_new|].
  split; [done|]. split; [done|]. done.
Qed.


Lemma exec_isPlaying c s h s' h' :
  Inv s -> exec c (s, h) = Ok (s', h') ->
  Sequencer.isPlaying s' =
  match c with
  | Start => true
  | Stop => false
  | _ => Sequencer.isPlaying s
  end.
Proof.
  intros HI He.
  pose proof (exec_pattern_call c s h s' h' HI He) as Hq.
  destruct c as [loaded| |tm|row step now|row step v|row step|
                 |pattern| | |bpm];
    try (by destruct Hq as (_ & -> & _)); unfold exec in He.
  - destruct (AudioEngine.init loaded _ h) as [[b e] h1].
    by injection He as <- <-.
  - unfold Sequencer.start in He. destruct (AudioEngine.start _ _).
    by injection He as <- <-.
  - unfold Sequencer.stop in He. destruct (AudioEngine.stop _ _).
    by injection He as <- <-.
  - unfold Sequencer.setTempo in He. destruct (AudioEngine.setTempo _ _ _).
    by injection He as <- <-.
Qed.

Lemma run_isPlaying cs s h :
  Inv s ->
  exists s' h',
    run cs (s, h) = Ok (s', h') ∧
    Sequencer.isPlaying s' = playing_after cs (Sequencer.isPlaying s).
Proof.
  revert s h. induction cs as [|c cs IH]; intros s h HI.
  - by exists s, h.
  - destruct (exec_Inv c s h HI) as (s1 & h1 & He & HI1).
    destruct (IH s1 h1 HI1) as (s' & h' & Hr & Hp).
    exists s', h'. split.
    { unfold run. rewrite foldM_cons, He, bind_Ok. exact Hr. }
    rewrite Hp, (exec_isPlaying c s h s1 h1 HI He). by destruct c.
Qed.

(** X9: [isSequencerPlaying()] tells which of [start()] and [stop()] was
    called last (false when neither was): no other call changes it, and
    neither the state of the audio engine nor its initialisation has a part
    in it. *)
Theorem isSequencerPlaying_follows_last_start_stop (cs : list call) :
  exists s h,
    run cs initial = Ok (s, h) ∧
    Sequencer.isSequencerPlaying s = playing_after cs false.
Proof.
  destruct (run_isPlaying cs (Sequencer.new AudioEngine.new) new_Host
              (Inv_new _)) as (s & h & Hr & Hp).
  by exists s, h.
Qed.

Lemma exec_currentStep_range c s h s' h' :
  Inv s -> -1 <= Sequencer.currentStep s <= 15 ->
  exec c (s, h) = Ok (s', h') ->
  -1 <= Sequencer.currentStep s' <= 15.
Proof.
  intros HI Hc He.
  destruct (exec_steps c s h s' h' HI He) as [-> _].
  destruct c; simpl; try lia.
  rewrite Z.rem_mod_nonneg by (unfold Sequencer.numSteps; lia).
  pose proof (Z.mod_pos_bound (Sequencer.currentStep s + 1) 16).
  unfold Sequencer.numSteps. lia.
Qed.

(** X10: whatever calls are made on a fresh sequencer, [getCurrentStep()]
    returns -1 or a step index of the grid, 0 to 15. *)
Theorem getCurrentStep_in_range (cs : list call) :
  exists s h,
    run cs initial = Ok (s, h) ∧
    -1 <= Sequencer.getCurrentStep s <= 15.
Proof.
  destruct (run_invariant
              (fun st => -1 <= Sequencer.currentStep st.1 <= 15)
              exec_currentStep_range cs
              (Sequencer.new AudioEngine.new) new_Host (Inv_new _))
    as (s & h & Hr & _ & Hc); [simpl; lia|].
  by exists s, h.
Qed.

(** ** Triggers and players *)

Lemma player_starts_app l1 l2 :
  player_starts (l1 ++ l2) = player_starts l1 ++ player_starts l2.
Proof. unfold player_starts. apply omap_app. Qed.

Lemma player_starts_notes e tm rows :
  (AudioEngine.initialized e = true ->
   forall r, r ∈ rows -> r ∈ AudioEngine.players e) ->
  player_starts (rows ≫= note_events e tm) =
  if AudioEngine.initialized e then (fun r => (r, tm)) <$> rows else [].
Proof.
  intros Hin. induction rows as [|row rows IH].
  - by destruct (AudioEngine.initialized e).
  - rewrite bind_cons, player_starts_app, IH.
    2:{ intros Hi r Hr. apply Hin; [done|by right]. }
    unfold note_events.
    destruct (AudioEngine.initialized e) eqn:Hi; [|done].
    rewrite bool_decide_eq_true_2; [done|]. apply Hin; [done|by left].
Qed.

(** X11: whatever calls were made on a fresh sequencer, an [onStep] starts,
    once the audio engine is initialised, exactly one player for each row
    it triggers, in the same order and with the due time of the step: no
    trigger finds its player missing. Before the initialisation it starts
    none. *)
Theorem onStep_starts_a_player_per_trigger (cs : list call) (tm : time) :
  exists s h,
    run cs initial = Ok (s, h) ∧
    player_starts (emitted h (Sequencer.onStep tm s h).2) =
    if AudioEngine.initialized (Sequencer.audioEngine s)
    then (fun row => (row, tm)) <$> triggered_rows tm s h
    else [].
Proof.
  destruct (run_engine_consistent cs) as (s & h & Hr & HI & _ & _ & Hi).
  exists s, h. split; [done|]. cbn [fst snd] in Hi.
  rewrite triggered_rows_entry.
  rewrite (emitted_app h _ (onStep_events tm s)) by apply onStep_trace.
  unfold onStep_events. rewrite player_starts_app, app_nil_r.
  apply player_starts_notes. intros Hinit row Hrow.
  destruct (Hi Hinit) as [-> _].
  apply HI in Hrow. apply cell_true_bounds in Hrow as [Hrow _]; [|apply HI].
  apply elem_of_list_to_set, elem_of_seqZ.
  unfold AudioEngine.samplePaths_length, Sequencer.numRows in *. lia.
Qed.

(** ** One pass of the loop *)

Lemma rotation_Permutation a :
  (fun i => (a + i) `mod` 16) <$> seqZ 0 16 ≡ₚ seqZ 0 16.
Proof.
  apply NoDup_Permutation.
  - apply NoDup_fmap_2_strong; [|apply NoDup_seqZ].
    intros i j Hi%elem_of_seqZ Hj%elem_of_seqZ Heq.
    pose proof (Z.div_mod (a + i) 16). pose proof (Z.div_mod (a + j) 16).
    pose proof (Z.mod_pos_bound (a + i) 16).
    pose proof (Z.mod_pos_bound (a + j) 16). lia.
  - apply NoDup_seqZ.
  - intros x. rewrite list_elem_of_fmap, elem_of_seqZ. split.
    + intros (i & -> & _). pose proof (Z.mod_pos_bound (a + i) 16). lia.
    + intros Hx. exists ((x - a) `mod` 16). split.
      * rewrite Z.add_mod_idemp_r by done.
        replace (a + (x - a)) with x by lia. by rewrite Z.mod_small.
      * apply elem_of_seqZ. pose proof (Z.mod_pos_bound (x - a) 16). lia.
Qed.

(** X12: in a run with 16 invocations of [onStep], whatever other calls
    except [stop()] and [init()] lie between them, each of the steps 0 to 15
    is notified exactly once, and a transport that was at a step is at that
    very step again. *)
Theorem sixteen_onSteps_visit_every_step
    (cs : list call) (s : Sequencer.t) (h : Host) :
  Inv s ->
  -1 <= Sequencer.currentStep s < 16 ->
  forallb (fun c => negb (resets c)) cs = true ->
  count_onStep cs = 16 ->
  exists s' h',
    run cs (s, h) = Ok (s', h') ∧
    step_events (emitted h h') ≡ₚ seqZ 0 16 ∧
    (0 <= Sequencer.currentStep s ->
     Sequencer.currentStep s' = Sequencer.currentStep s).
Proof.
  intros HI Hc Hnr Hn.
  destruct (run_steps cs s h HI Hnr Hc)
    as (s' & h' & evs & Hr & _ & Ht & Hev & Hfin).
  exists s', h'. split; [done|]. rewrite Hn in Hev, Hfin. split.
  - rewrite (emitted_app h h' evs) by done. rewrite Hev.
    rewrite <- (rotation_Permutation (Sequencer.currentStep s + 1)) at 2.
    done.
  - intros Hpos. rewrite Hfin, decide_False by lia.
    rewrite <- (Z.mul_1_l 16) at 1. rewrite Z.mod_add by lia.
    apply Z.mod_small. lia.
Qed.

Lemma sixteen_onSteps_visit_every_step_witness :
  let cs := [OnStep 0; OnStep 1; OnStep 2; OnStep 3; ToggleStep 2 7 3;
             OnStep 4; OnStep 5; OnStep 6; OnStep 7; OnStep 8; OnStep 9;
             OnStep 10; OnStep 11; ClearGrid; OnStep 12; OnStep 13;
             OnStep 14; OnStep 15] in
  let st := after [SetStep 0 0 true; Start; OnStep 100; OnStep 101] in
  exists s' h',
    run cs (st.1, st.2) = Ok (s', h') ∧
    step_events (emitted st.2 h') ≡ₚ seqZ 0 16 ∧
    (0 <= Sequencer.currentStep st.1 ->
     Sequencer.currentStep s' = Sequencer.currentStep st.1).
Proof.
  intros cs st. apply (sixteen_onSteps_visit_every_step cs st.1 st.2).
  - apply (run_after [SetStep 0 0 true; Start; OnStep 100; OnStep 101]).
  - apply (bool_decide_unpack _). vm_compute. reflexivity.
  - reflexivity.
  - reflexivity.
Defined.

(** ** Edits at different steps *)

(** X13: two [setStep] calls on cells of different steps commute: in either
    order they leave the same sequencer, grid and Active-Step Index
    included. *)
Theorem setStep_commutes_across_steps
    (r1 s1 r2 s2 : Z) (v1 v2 : bool) (s : Sequencer.t) :
  Inv s ->
  Sequencer.in_bounds r1 s1 = true ->
  Sequencer.in_bounds r2 s2 = true ->
  s1 ≠ s2 ->
  exists sa sb sab,
    Sequencer.setStep r1 s1 v1 s = Ok sa ∧
    Sequencer.setStep r2 s2 v2 sa = Ok sab ∧
    Sequencer.setStep r2 s2 v2 s = Ok sb ∧
    Sequencer.setStep r1 s1 v1 sb = Ok sab.
Proof.
  intros HI Hb1 Hb2 Hne.
  destruct (setStep_spec r1 s1 v1 s HI Hb1)
    as (ga & ca & Ha & HIa & Hcella & Hentrya).
  destruct (setStep_spec r2 s2 v2 _ HIa Hb2)
    as (gab & cab & Hab & HIab & Hcellab & Hentryab).
  destruct (setStep_spec r2 s2 v2 s HI Hb2)
    as (gb & cb & Hb & HIb & Hcellb & Hentryb).
  destruct (setStep_spec r1 s1 v1 _ HIb Hb1)
    as (gba & cba & Hba & HIba & Hcellba & Hentryba).
  simpl in Hcellab, Hentryab, Hcellba, Hentryba.
  assert (gba = gab) as Hg.
  { apply grid_ext; [apply HIba|apply HIab|]. intros r c.
    rewrite Hcellba, Hcellab, Hcellb, Hcella.
    destruct (decide (r = r1 ∧ c = s1)) as [[-> ->]|];
      destruct (decide (_ = r2 ∧ _ = s2)) as [[-> ->]|]; done. }
  assert (cba = cab) as Hc.
  { apply entries_tidy_eq; [apply HIba|apply HIab|]. intros step.
    rewrite Hentryba, Hentryab, !Hentryb, !Hentrya.
    rewrite (decide_False (P:=s1 = s2)), (decide_False (P:=s2 = s1)) by done.
    destruct (decide (step = s1)) as [->|];
      destruct (decide (_ = s2)) as [->|]; done. }
  eexists _, _, _. split; [exact Ha|]. split; [exact Hab|].
  split; [exact Hb|]. rewrite Hba, Hg, Hc. by destruct s.
Qed.

Lemma setStep_commutes_across_steps_witness :
  let s := (after [SetStep 1 0 true; SetStep 0 4 true]).1 in
  exists sa sb sab,
    Sequencer.setStep 0 0 true s = Ok sa ∧
    Sequencer.setStep 1 4 false sa = Ok sab ∧
    Sequencer.setStep 1 4 false s = Ok sb ∧
    Sequencer.setStep 0 0 true sb = Ok sab.
Proof.
  intros s. apply (setStep_commutes_across_steps 0 0 1 4 true false s).
  - apply (run_after [SetStep 1 0 true; SetStep 0 4 true]).
  - reflexivity.
  - reflexivity.
  - lia.
Defined.

(** ** Editing while the transport runs *)

(** X14: a call that reads or edits the pattern ([toggleStep], [setStep],
    [getStep], [clearGrid], [setPattern]) returns normally and never
    disturbs the playback: [currentStep], [isPlaying], the audio engine and
    the Tone transport are as before, and no step-changed notification is
    emitted. *)
Theorem edits_leave_transport_alone (c : call) (s : Sequencer.t) (h : Host) :
  Inv s ->
  is_edit c = true ->
  exists s' h',
    exec c (s, h) = Ok (s', h') ∧
    Sequencer.currentStep s' = Sequencer.currentStep s ∧
    Sequencer.isPlaying s' = Sequencer.isPlaying s ∧
    Sequencer.audioEngine s' = Sequencer.audioEngine s ∧
    transport_started h' = transport_started h ∧
    transport_bpm h' = transport_bpm h ∧
    step_events (emitted h h') = [].
Proof.
  intros HI Hc.
  destruct (exec_Inv c s h HI) as (s' & h' & He & _).
  destruct (exec_steps c s h s' h' HI He) as (Hcur & evs & Ht & Hev).
  pose proof (exec_pattern_call c s h s' h' HI He) as Hq.
  exists s', h'. split; [done|].
  rewrite (emitted_app h h' evs) by done. rewrite Hev, Hcur.
  destruct c; try discriminate Hc; by destruct Hq as (-> & -> & -> & ->).
Qed.

Lemma edits_leave_transport_alone_witness :
  let st := after [EngineInit true; Start; OnStep 1; OnStep 2] in
  exists s' h',
    exec (ToggleStep 3 1 7) (st.1, st.2) = Ok (s', h') ∧
    Sequencer.currentStep s' = Sequencer.currentStep st.1 ∧
    Sequencer.isPlaying s' = Sequencer.isPlaying st.1 ∧
    Sequencer.audioEngine s' = Sequencer.audioEngine st.1 ∧
    transport_started h' = transport_started st.2 ∧
    transport_bpm h' = transport_bpm st.2 ∧
    step_events (emitted st.2 h') = [].
Proof.
  intros st. apply (edits_leave_transport_alone (ToggleStep 3 1 7) st.1 st.2).
  - apply (run_after [EngineInit true; Start; OnStep 1; OnStep 2]).
  - reflexivity.
Defined.

(** ** Initialising the sequencer again *)

(** X15: [init()] on a state that calls have led to returns normally, logs
    its line, keeps the grid and [isPlaying], puts [currentStep] back to -1,
    so that the next [onStep] is step 0, and leaves a consistent index with
    every entry in ascending row order. *)
Theorem init_resets_step_and_rebuilds_index (s : Sequencer.t) (h : Host) :
  Inv s ->
  exists s',
    Sequencer.init s h = Ok (s', emit (ConsoleLog "Sequencer initialized") h) ∧
    Sequencer.grid s' = Sequencer.grid s ∧
    Sequencer.isPlaying s' = Sequencer.isPlaying s ∧
    Sequencer.getCurrentStep s' = -1 ∧
    (forall tm h2,
        Sequencer.getCurrentStep (Sequencer.onStep tm s' h2).1 = 0) ∧
    index_consistent s' ∧
    forall step, ascending (entry (Sequencer.activeStepsCache s') step).
Proof.
  intros HI. unfold Sequencer.init.
  destruct (updateActiveStepsCache_wf (Sequencer.set_currentStep (-1) s))
    as (cache & -> & Hreb); [apply HI|].
  rewrite bind_Ok. eexists. split; [done|]. simpl in Hreb.
  split; [done|]. split; [done|]. split; [done|]. split; [done|]. split.
  - apply (rebuilt_Inv (Sequencer.set_currentStep (-1) s) cache);
      [apply HI|done].
  - intros step. simpl. rewrite (rebuilt_entry _ _ _ Hreb).
    apply ascending_rows_of.
Qed.

Lemma init_resets_step_and_rebuilds_index_witness :
  let st := after [SetStep 1 0 true; SetStep 0 0 true; Start; OnStep 5] in
  exists s',
    Sequencer.init st.1 st.2 =
      Ok (s', emit (ConsoleLog "Sequencer initialized") st.2) ∧
    Sequencer.grid s' = Sequencer.grid st.1 ∧
    Sequencer.isPlaying s' = Sequencer.isPlaying st.1 ∧
    Sequencer.getCurrentStep s' = -1 ∧
    (forall tm h2,
        Sequencer.getCurrentStep (Sequencer.onStep tm s' h2).1 = 0) ∧
    index_consistent s' ∧
    forall step, ascending (entry (Sequencer.activeStepsCache s') step).
Proof.
  intros st. apply (init_resets_step_and_rebuilds_index st.1 st.2).
  apply (run_after [SetStep 1 0 true; SetStep 0 0 true; Start; OnStep 5]).
Defined.
